(** * wavrider: the cassette-tone decoder of [internal/decoder/decoder.go]

    A shallow embedding of [Decode] and [processSamples] together with the
    properties of the demodulation pipeline.

    Conventions of the embedding.

    - Go [int] values (crossing indices, counters) are [Z]; loop indices that
      only ever index a slice are [nat].  No counter of the program can leave
      the 64-bit range: each is bounded by the length of a slice.
    - The Go [byte] accumulator [currentByte] is a [Z] whose 8-bit wrap-around
      is written out ([wrap8]).
    - A [float64] is modelled by module [F64]: an exact rational or one of the
      IEEE special values.  Every float64 the program computes is either an
      exactly representable quotient (the normalised samples) or the quotient
      [float64(d) / float64(rate)] of two integers, a difference [d] of slice
      indices and a [uint32] rate, compared with the constants 350e-6 and
      600e-6.  Both conversions are exact.  For a positive rate the exact
      quotient, when it differs from a threshold, differs from it by at least
      1/(20000 * 2^32), many orders of magnitude above the spacing of binary64
      numbers around the thresholds (2^-64 and 2^-63); when it equals the
      threshold, the correctly rounded quotient equals the rounded constant.
      Comparisons on the exact values therefore agree with the comparisons of
      the program.  For a rate of 0 the quotient is an infinity or NaN, as in
      the model.  Module [Binary64] replays the boundary cases on primitive
      binary64 numbers.
    - A slice index out of range is a run-time panic, modelled by [Panic];
      a loop that cannot end by [Diverge].  Loops are given fuel; [NoFuel]
      is shown unreachable for every loop ([loop2_runIntervals], [loop1_spec],
      [Decode_definite]). *)

From Stdlib Require Import ZArith QArith Lqa Lia List.
From Stdlib Require Import Strings.Byte Sorting.Sorted.
From Stdlib Require Import Floats.PrimFloat Numbers.Cyclic.Int63.Uint63.
From stdpp Require Import base list strings.

Local Open Scope Z_scope.

(** ** Outcomes of a run *)

Inductive ioerr := EOF | ErrUnexpectedEOF.

Inductive error :=
| ErrOpen
| ErrReadHeader (e : ioerr)      (* "failed to read WAV header: ..." *)
| ErrInvalidWav                  (* "invalid WAV file" *)
| ErrDataChunkNotFound           (* "data chunk not found" *)
| ErrIO (e : ioerr)              (* an error of the reader, returned as is *)
| ErrUnsupportedBits (bits : Z). (* "unsupported bits per sample: %d" *)

Inductive outcome (A : Type) :=
| Ret (a : A)        (* normal return *)
| Fail (e : error)   (* return nil, err *)
| Panic              (* index out of range *)
| Diverge            (* a loop of the program that never ends *)
| NoFuel.            (* the fuel of the model ran out *)

Arguments Ret {A} a.
Arguments Fail {A} e.
Arguments Panic {A}.
Arguments Diverge {A}.
Arguments NoFuel {A}.

Definition obind {A B} (m : outcome A) (k : A → outcome B) : outcome B :=
  match m with
  | Ret a => k a
  | Fail e => Fail e
  | Panic => Panic
  | Diverge => Diverge
  | NoFuel => NoFuel
  end.

Notation "'do' x <- m ; k" := (obind m (fun x => k))
  (at level 10, x name, m at level 100, k at level 200).
Notation "'do' ' p <- m ; k" := (obind m (fun x => let p := x in k))
  (at level 10, p pattern, m at level 100, k at level 200).

(** [s[i]] on a slice. *)
Definition index {A} (s : list A) (i : nat) : outcome A :=
  match s !! i with
  | Some x => Ret x
  | None => Panic
  end.

(** [s[i-1]] for a loop index [i]: index -1 panics. *)
Definition index_pred {A} (s : list A) (i : nat) : outcome A :=
  match i with
  | O => Panic
  | S j => index s j
  end.

(** ** float64 values *)

Module F64.

Inductive t := NaN | NegInf | Fin (q : Q) | PosInf.

Definition of_int (z : Z) : t := Fin (inject_Z z).

Definition Qltb (x y : Q) : bool := negb (Qle_bool y x).

Definition ltb (x y : t) : bool :=
  match x, y with
  | NaN, _ | _, NaN => false
  | PosInf, _ | _, NegInf => false
  | NegInf, _ | _, PosInf => true
  | Fin a, Fin b => Qltb a b
  end.

Definition leb (x y : t) : bool :=
  match x, y with
  | NaN, _ | _, NaN => false
  | NegInf, _ | _, PosInf => true
  | PosInf, _ | _, NegInf => false
  | Fin a, Fin b => Qle_bool a b
  end.

Definition gtb (x y : t) : bool := ltb y x.
Definition geb (x y : t) : bool := leb y x.

Definition sub (x y : t) : t :=
  match x, y with
  | NaN, _ | _, NaN => NaN
  | PosInf, PosInf | NegInf, NegInf => NaN
  | PosInf, _ | _, NegInf => PosInf
  | NegInf, _ | _, PosInf => NegInf
  | Fin a, Fin b => Fin (a - b)
  end.

Definition sign (q : Q) : comparison := (Qnum q ?= 0)%Z.

Definition inf_of (c : comparison) : t :=
  match c with Gt => PosInf | Lt => NegInf | Eq => NaN end.

(** Division.  A zero divisor is always +0 in this program (it is the
    conversion of an unsigned integer), so x/0 takes the sign of x. *)
Definition div (x y : t) : t :=
  match x, y with
  | NaN, _ | _, NaN => NaN
  | Fin a, Fin b =>
      match sign b with
      | Eq => inf_of (sign a)
      | _ => Fin (a / b)
      end
  | Fin _, _ => Fin 0
  | PosInf, Fin b => match sign b with Lt => NegInf | _ => PosInf end
  | NegInf, Fin b => match sign b with Lt => PosInf | _ => NegInf end
  | _, _ => NaN
  end.

End F64.

(** ** The demodulator of [processSamples] *)

(** The [iota] constants of the state machine. *)
Inductive State := StateFindHeader | StateFindSync | StateReadData.

(** Thresholds: 350us and 600us. *)
Definition ShortThreshold : F64.t := F64.Fin (350 # 1000000).
Definition LongThreshold : F64.t := F64.Fin (600 # 1000000).

(** The local variables of [processSamples] that the loops update. *)
Record locals := mkLocals {
  state : State;
  decodedBytes : list Z;
  currentByte : Z;
  bitCount : Z;
  headerCount : Z
}.

Definition with_state (s : State) (l : locals) : locals :=
  mkLocals s (decodedBytes l) (currentByte l) (bitCount l) (headerCount l).
Definition with_decodedBytes (d : list Z) (l : locals) : locals :=
  mkLocals (state l) d (currentByte l) (bitCount l) (headerCount l).
Definition with_currentByte (c : Z) (l : locals) : locals :=
  mkLocals (state l) (decodedBytes l) c (bitCount l) (headerCount l).
Definition with_bitCount (n : Z) (l : locals) : locals :=
  mkLocals (state l) (decodedBytes l) (currentByte l) n (headerCount l).
Definition with_headerCount (n : Z) (l : locals) : locals :=
  mkLocals (state l) (decodedBytes l) (currentByte l) (bitCount l) n.

(** The declarations before the first loop: [state := StateFindHeader],
    [var decodedBytes []byte], [var currentByte byte], [var bitCount int],
    [headerCount := 0]. *)
Definition locals0 : locals := mkLocals StateFindHeader [] 0 0 0.

(** Conversion of a Go value to [byte]. *)
Definition wrap8 (z : Z) : Z := z mod 256.

(** [float64(durationSamples) / float64(sampleRate)] for
    [durationSamples := b - a]. *)
Definition durationOf (sampleRate : Z) (a b : Z) : F64.t :=
  F64.div (F64.of_int (b - a)) (F64.of_int sampleRate).

(** The [isShort]/[isHeader] flags set at the top of each iteration. *)
Definition flags (durationSec : F64.t) : bool * bool :=
  if F64.ltb durationSec ShortThreshold then (true, false)
  else if F64.ltb durationSec LongThreshold then (false, false)
  else (false, true).

(** *** Zero-crossing detection: the [range] loop over the samples *)

Fixpoint detect (i : Z) (prevSample : F64.t) (samples : list F64.t) : list Z :=
  match samples with
  | [] => []
  | sample :: rest =>
      let zero := F64.of_int 0 in
      if (F64.ltb prevSample zero && F64.geb sample zero)
         || (F64.geb prevSample zero && F64.ltb sample zero)
      then i :: detect (i + 1) sample rest
      else detect (i + 1) sample rest
  end.

(** *** First loop ([for i := 1; i < len(crossings); i++]) *)

Definition step1 (crossings : list Z) (sampleRate : Z) (i : nat) (l : locals)
  : outcome locals :=
  do ci <- index crossings i;
  do cp <- index_pred crossings i;
  let durationSec := durationOf sampleRate cp ci in
  let '(isShort, isHeader) := flags durationSec in
  match state l with
  | StateFindHeader =>
      if isHeader then Ret (with_headerCount (headerCount l + 1) l)
      else if (100 <? headerCount l) && isShort
           then Ret (with_state StateFindSync l)
           else Ret (with_headerCount 0 l)
  | StateFindSync =>
      if isShort
      then Ret (with_bitCount 0 (with_currentByte 0 (with_state StateReadData l)))
      else Ret (with_headerCount 0 (with_state StateFindHeader l))
  | StateReadData => Ret l
  end.

Fixpoint loop1 (fuel : nat) (crossings : list Z) (sampleRate : Z)
    (i : nat) (l : locals) : outcome locals :=
  if (i <? length crossings)%nat then
    match fuel with
    | O => NoFuel
    | S fuel' =>
        do l' <- step1 crossings sampleRate i l;
        loop1 fuel' crossings sampleRate (S i) l'
    end
  else Ret l.

(** *** Second loop ([for i < len(crossings)]) *)

(** Bit ingestion: [currentByte = (currentByte << 1)] for a 0 and
    [currentByte = (currentByte << 1) | 1] for a 1, then [bitCount++]. *)
Definition pushBit (bit : bool) (l : locals) : locals :=
  if bit then
    with_bitCount (bitCount l + 1)
      (with_currentByte (Z.lor (wrap8 (Z.shiftl (currentByte l) 1)) 1) l)
  else
    with_bitCount (bitCount l + 1)
      (with_currentByte (wrap8 (Z.shiftl (currentByte l) 1)) l).

(** The [if bitCount == 8] block that ends the [StateReadData] case. *)
Definition emit (l : locals) : locals :=
  if bitCount l =? 8 then
    with_bitCount 0
      (with_currentByte 0
         (with_decodedBytes (decodedBytes l ++ [currentByte l]) l))
  else l.

(** The body of the [StateReadData] case once both half-cycles are known. *)
Definition readBit (dur1 dur2 : F64.t) (l : locals) : locals :=
  let isZero := F64.ltb dur1 ShortThreshold && F64.ltb dur2 ShortThreshold in
  let isOne :=
    (F64.geb dur1 ShortThreshold && F64.ltb dur1 LongThreshold)
    && (F64.geb dur2 ShortThreshold && F64.ltb dur2 LongThreshold) in
  let l :=
    if isZero then pushBit false l
    else if isOne then pushBit true l
    else if F64.gtb dur1 LongThreshold || F64.gtb dur2 LongThreshold then
      with_headerCount 0 (with_state StateFindHeader l)
    else l in
  emit l.

(** One iteration of the second loop, entered with [i < len(crossings)];
    it returns the new [i] with the updated locals. *)
Definition step2 (crossings : list Z) (sampleRate : Z) (i : nat) (l : locals)
  : outcome (nat * locals) :=
  do ci <- index crossings i;
  do cp <- index_pred crossings i;
  let durationSec := durationOf sampleRate cp ci in
  let i := S i in
  let '(isShort, isHeader) := flags durationSec in
  match state l with
  | StateFindHeader =>
      if isHeader
         || (F64.gtb durationSec ShortThreshold
             && F64.ltb durationSec LongThreshold)
      then Ret (i, with_headerCount (headerCount l + 1) l)
      else if (50 <? headerCount l) && isShort then
        if (i <? length crossings)%nat then
          do cn <- index crossings i;
          do cq <- index_pred crossings i;
          let nextDur := durationOf sampleRate cq cn in
          if F64.ltb nextDur ShortThreshold
          then Ret (S i, with_bitCount 0
                           (with_currentByte 0 (with_state StateReadData l)))
          else Ret (i, with_headerCount 0 (with_state StateFindHeader l))
        else Ret (i, l)
      else Ret (i, with_headerCount 0 l)
  | StateFindSync => Ret (i, l)
  | StateReadData =>
      if (length crossings <=? i)%nat then Ret (i, l)
      else
        do cn <- index crossings i;
        do cq <- index_pred crossings i;
        let dur1 := durationSec in
        let dur2 := durationOf sampleRate cq cn in
        Ret (S i, readBit dur1 dur2 l)
  end.

Fixpoint loop2 (fuel : nat) (crossings : list Z) (sampleRate : Z)
    (i : nat) (l : locals) : outcome locals :=
  if (i <? length crossings)%nat then
    match fuel with
    | O => NoFuel
    | S fuel' =>
        do '(i', l') <- step2 crossings sampleRate i l;
        loop2 fuel' crossings sampleRate i' l'
    end
  else Ret l.

(** The statements between the loops: [i := 1], [state = StateFindHeader],
    [headerCount = 0]. *)
Definition restart (l : locals) : locals :=
  with_headerCount 0 (with_state StateFindHeader l).

(** The demodulator proper: the second loop run from its start on a crossing
    sequence; the result is every local at the end of the loop. *)
Definition demodulate (crossings : list Z) (sampleRate : Z) : outcome locals :=
  loop2 (length crossings) crossings sampleRate 1 locals0.

Definition crossingsOf (samples : list F64.t) : outcome (list Z) :=
  do prevSample <- index samples 0;
  Ret (detect 0 prevSample samples).

Definition processSamples (samples : list F64.t) (sampleRate : Z)
  : outcome (list Z) :=
  do crossings <- crossingsOf samples;
  do l <- loop1 (length crossings) crossings sampleRate 1 locals0;
  do l <- loop2 (length crossings) crossings sampleRate 1 (restart l);
  Ret (decodedBytes l).


(** The loop-free reading of the decoder (one pass over the crossings): the
    pipeline as the design describes it, to be compared with
    [processSamples]. *)
Definition processSamplesSinglePass (samples : list F64.t) (sampleRate : Z)
  : outcome (list Z) :=
  do crossings <- crossingsOf samples;
  do l <- demodulate crossings sampleRate;
  Ret (decodedBytes l).

(** *** The interval view of the second loop *)

(** The three bands of a half-cycle, as the flags of an iteration give them:
    [isShort], neither flag, [isHeader]. *)
Inductive ToneCategory := Short | Medium | Long.

Definition tone (durationSec : F64.t) : ToneCategory :=
  match flags durationSec with
  | (true, _) => Short
  | (false, false) => Medium
  | (false, true) => Long
  end.

(** [crossings[k+1] - crossings[k]] in seconds, for every adjacent pair. *)
Fixpoint intervals (sampleRate : Z) (crossings : list Z) : list F64.t :=
  match crossings with
  | a :: (b :: _) as rest => durationOf sampleRate a b :: intervals sampleRate rest
  | _ => []
  end.

(** The second loop as a recursion over the durations still to be consumed:
    an iteration takes one duration, and a second one where the loop body
    reads [crossings[i]] after its own [i++]. *)
Fixpoint runIntervals (ds : list F64.t) (l : locals) : locals :=
  match ds with
  | [] => l
  | durationSec :: rest =>
      match state l with
      | StateFindHeader =>
          if snd (flags durationSec)
             || (F64.gtb durationSec ShortThreshold
                 && F64.ltb durationSec LongThreshold)
          then runIntervals rest (with_headerCount (headerCount l + 1) l)
          else if (50 <? headerCount l) && fst (flags durationSec) then
            match rest with
            | nextDur :: rest' =>
                if F64.ltb nextDur ShortThreshold
                then runIntervals rest'
                       (with_bitCount 0
                          (with_currentByte 0 (with_state StateReadData l)))
                else runIntervals rest
                       (with_headerCount 0 (with_state StateFindHeader l))
            | [] => l
            end
          else runIntervals rest (with_headerCount 0 l)
      | StateFindSync => runIntervals rest l
      | StateReadData =>
          match rest with
          | dur2 :: rest' => runIntervals rest' (readBit durationSec dur2 l)
          | [] => l
          end
      end
  end.

(** The value of eight bits, first bit in the high position. *)
Definition msbValue (bits : list bool) : Z :=
  fold_left (fun acc (b : bool) => 2 * acc + (if b then 1 else 0)) bits 0.

(** The bit a pair of half-cycles stands for ([isZero] / [isOne]). *)
Definition pairBit (dur1 dur2 : F64.t) : option bool :=
  if F64.ltb dur1 ShortThreshold && F64.ltb dur2 ShortThreshold then Some false
  else if (F64.geb dur1 ShortThreshold && F64.ltb dur1 LongThreshold)
          && (F64.geb dur2 ShortThreshold && F64.ltb dur2 LongThreshold)
       then Some true
       else None.


(** ** The container reader of [Decode] *)

Record WavHeader := mkWavHeader {
  ChunkID : list byte;
  ChunkSize : Z;
  Format : list byte;
  Subchunk1ID : list byte;
  Subchunk1Size : Z;
  AudioFormat : Z;
  NumChannels : Z;
  SampleRate : Z;
  ByteRate : Z;
  BlockAlign : Z;
  BitsPerSample : Z
}.

Definition u8 (b : byte) : Z := Z.of_N (Byte.to_N b).

Definition byte_at (bs : list byte) (i : nat) : byte := nth i bs x00.

(** [binary.LittleEndian.Uint16] and [Uint32] at an offset. *)
Definition uint16_at (bs : list byte) (i : nat) : Z :=
  Z.lor (u8 (byte_at bs i)) (Z.shiftl (u8 (byte_at bs (i + 1))) 8).

Definition uint32_at (bs : list byte) (i : nat) : Z :=
  Z.lor (Z.lor (u8 (byte_at bs i)) (Z.shiftl (u8 (byte_at bs (i + 1))) 8))
        (Z.lor (Z.shiftl (u8 (byte_at bs (i + 2))) 16)
               (Z.shiftl (u8 (byte_at bs (i + 3))) 24)).

(** Conversion [int16(u)] of a 16-bit pattern. *)
Definition int16_of (u : Z) : Z := if u <? 32768 then u else u - 65536.

(** [io.ReadFull] of [n] bytes on the unread part of the file: all [n] bytes
    and the rest, or [EOF] when nothing was left and [ErrUnexpectedEOF] when
    fewer than [n] were. *)
Definition readFull (n : nat) (f : list byte) : ioerr + (list byte * list byte) :=
  if (n <=? length f)%nat then inr (take n f, drop n f)
  else match f with
       | [] => inl EOF
       | _ => inl ErrUnexpectedEOF
       end.

(** The 36 bytes that [binary.Read] stores into the header, field by field. *)
Definition decodeHeader (bs : list byte) : WavHeader :=
  {| ChunkID := take 4 bs;
     ChunkSize := uint32_at bs 4;
     Format := take 4 (drop 8 bs);
     Subchunk1ID := take 4 (drop 12 bs);
     Subchunk1Size := uint32_at bs 16;
     AudioFormat := uint16_at bs 20;
     NumChannels := uint16_at bs 22;
     SampleRate := uint32_at bs 24;
     ByteRate := uint32_at bs 28;
     BlockAlign := uint16_at bs 32;
     BitsPerSample := uint16_at bs 34 |}.

(** Equality of two byte strings. *)
Fixpoint bytes_eqb (a b : list byte) : bool :=
  match a, b with
  | [], [] => true
  | x :: a', y :: b' => Byte.eqb x y && bytes_eqb a' b'
  | _, _ => false
  end.

Definition tagRIFF : list byte := String.list_byte_of_string "RIFF"%string.
Definition tagWAVE : list byte := String.list_byte_of_string "WAVE"%string.
Definition tagData : list byte := String.list_byte_of_string "data"%string.

(** The search for the data chunk; [f] is the unread part of the file.  A
    [Seek] past the end of a file succeeds and leaves nothing to read. *)
Fixpoint findDataChunk (fuel : nat) (f : list byte) : outcome (list byte) :=
  match fuel with
  | O => NoFuel
  | S fuel' =>
      match readFull 4 f with
      | inl EOF => Fail ErrDataChunkNotFound
      | inl e => Fail (ErrIO e)
      | inr (chunkID, f) =>
          match readFull 4 f with
          | inl e => Fail (ErrIO e)
          | inr (size, f) =>
              let chunkSize := uint32_at size 0 in
              if bytes_eqb chunkID tagData then Ret f
              else findDataChunk fuel' (drop (Z.to_nat chunkSize) f)
          end
      end
  end.

(** [for i := start; i < n; i += numChannels]: the elements of the buffer at
    the indices visited. *)
Fixpoint strideFrom {A} (fuel : nat) (numChannels : nat) (i n : nat)
    (buf : list A) : outcome (list A) :=
  if (i <? n)%nat then
    match fuel with
    | O => NoFuel
    | S fuel' =>
        do x <- index buf i;
        do r <- strideFrom fuel' numChannels (i + numChannels) n buf;
        Ret (x :: r)
    end
  else Ret [].

(** With a channel count of 0 the index never advances: the loop appends the
    same sample for ever. *)
Definition leftChannel {A} (numChannels : Z) (n : nat) (buf : list A)
  : outcome (list A) :=
  if (n =? 0)%nat then Ret []
  else if numChannels =? 0 then Diverge
  else strideFrom n (Z.to_nat numChannels) 0 n buf.

Definition sample8 (b : byte) : F64.t :=
  F64.div (F64.sub (F64.of_int (u8 b)) (F64.of_int 128)) (F64.of_int 128).

Definition sample16 (v : Z) : F64.t :=
  F64.div (F64.of_int v) (F64.of_int 32768).

(** The 8-bit loop: [f.Read] fills at most 1024 bytes; at the end of the file
    it returns [0, io.EOF]. *)
Fixpoint read8 (fuel : nat) (numChannels : Z) (f : list byte)
  : outcome (list F64.t) :=
  match fuel with
  | O => NoFuel
  | S fuel' =>
      let n := Nat.min 1024 (length f) in
      let buf := take n f in
      if (n =? 0)%nat then Ret []
      else
        do s <- leftChannel numChannels n buf;
        do r <- read8 fuel' numChannels (drop n f);
        Ret (map sample8 s ++ r)
  end.

(** The little-endian 16-bit values of a block of bytes. *)
Fixpoint int16s (bs : list byte) : list Z :=
  match bs with
  | b0 :: b1 :: rest => int16_of (uint16_at [b0; b1] 0) :: int16s rest
  | _ => []
  end.

(** The 16-bit loop: [binary.Read] into a buffer of 1024 values reads 2048
    bytes with [io.ReadFull]; on any error the loop ends and the block is
    not used. *)
Definition blockValues : nat := 1024.
Definition blockBytes : nat := 2048.

Fixpoint read16 (fuel : nat) (numChannels : Z) (f : list byte)
  : outcome (list F64.t) :=
  match fuel with
  | O => NoFuel
  | S fuel' =>
      match readFull blockBytes f with
      | inl _ => Ret []
      | inr (bs, f') =>
          let buf := int16s bs in
          do s <- leftChannel numChannels (length buf) buf;
          do r <- read16 fuel' numChannels f';
          Ret (map sample16 s ++ r)
      end
  end.

(** The samples of the data chunk, by sample width. *)
Definition readSamples (header : WavHeader) (f : list byte)
  : outcome (list F64.t) :=
  if BitsPerSample header =? 8 then
    read8 (S (length f)) (NumChannels header) f
  else if BitsPerSample header =? 16 then
    read16 (S (length f)) (NumChannels header) f
  else Fail (ErrUnsupportedBits (BitsPerSample header)).

Definition readHeader (f : list byte) : outcome (WavHeader * list byte) :=
  match readFull 36 f with
  | inl e => Fail (ErrReadHeader e)
  | inr (bs, f') => Ret (decodeHeader bs, f')
  end.

(** [Decode]; the file system maps a name to the bytes of the file, if it can
    be opened. *)
Definition Decode (fs : string → option (list byte))
    (filename : string) : outcome (list Z) :=
  match fs filename with
  | None => Fail ErrOpen
  | Some f =>
      do '(header, f) <- readHeader f;
      if negb (bytes_eqb (ChunkID header) tagRIFF)
         || negb (bytes_eqb (Format header) tagWAVE)
      then Fail ErrInvalidWav
      else
        do f <- findDataChunk (S (length f)) f;
        do samples <- readSamples header f;
        processSamples samples (SampleRate header)
  end.

(** ** The boundary durations on binary64 numbers *)

Module Binary64.

(** [float64(durationSamples) / float64(sampleRate)]. *)
Definition duration (durationSamples sampleRate : int) : float :=
  PrimFloat.div (PrimFloat.of_uint63 durationSamples)
                (PrimFloat.of_uint63 sampleRate).

(** The constants 0.000350 and 0.000600 rounded to binary64. *)
Definition ShortThreshold : float := 0x1.6f0068db8bac7p-12%float.
Definition LongThreshold : float := 0x1.3a92a30553261p-11%float.

End Binary64.

(** ** Test tapes *)

(** The bit pattern 10110010, one pair of half-cycles per bit, first bit
    first: a 1 is Medium,Medium and a 0 is Short,Short. *)
Definition tonesOfBit (b : bool) : list ToneCategory :=
  if b then [Medium; Medium] else [Short; Short].

Definition bitsB2 : list bool :=
  [true; false; true; true; false; false; true; false].

(** 60 Medium intervals, the sync pair, then the sixteen data intervals. *)
Definition leaderSyncB2 : list ToneCategory :=
  repeat Medium 60 ++ [Short; Short] ++ concat (map tonesOfBit bitsB2).

(** The durations of a list of half-cycle pairs, in order. *)
Definition flattenPairs (pairs : list (F64.t * F64.t)) : list F64.t :=
  concat (map (fun p => [fst p; snd p]) pairs).

(** A crossing sequence with the given steps between crossings. *)
Fixpoint crossingsFrom (start : Z) (steps : list Z) : list Z :=
  match steps with
  | [] => [start]
  | d :: rest => start :: crossingsFrom (start + d) rest
  end.

(** The number of samples between two crossings for each band. *)
Definition stepsOf (short medium long : Z) (ts : list ToneCategory) : list Z :=
  map (fun t => match t with Short => short | Medium => medium | Long => long end) ts.

(** At 44100 samples per second, 20 samples are a Medium half-cycle (453us)
    and 10 samples a Short one (227us). *)
Definition crossingsB2 : list Z :=
  crossingsFrom 0 (stepsOf 10 20 40 leaderSyncB2).

(** The same tape sampled at 20kHz with Medium half-cycles of 7 samples:
    exactly 350us each.  Short is 4 samples (200us). *)
Definition crossings350 : list Z :=
  crossingsFrom 0 (stepsOf 4 7 12 leaderSyncB2).

(** A tape sampled at 5kHz (Short 1 sample, Medium 2 samples, and 3 samples
    are exactly 600us): leader, sync, the bits 101, a pair made of a 600us
    half-cycle and a Short one, then the bits 10010. *)
Definition crossings600 : list Z :=
  crossingsFrom 0
    (stepsOf 1 2 3
       (repeat Medium 60 ++ [Short; Short]
        ++ concat (map tonesOfBit [true; false; true])
        ++ [Long; Short]
        ++ concat (map tonesOfBit [true; false; false; true; false]))).

(** What a header interval must satisfy for the counter to advance: Long, or
    Medium and strictly above 350us. *)
Definition headerTone (d : F64.t) : Prop :=
  tone d = Long ∨ (tone d = Medium ∧ F64.gtb d ShortThreshold = true).

(** The behaviour the specification states for the leader/sync/0xB2
    sequence: one byte 0xB2 and a machine back in [StateFindHeader]. *)
Definition emitsB2ThenFindHeader (crossings : list Z) (sampleRate : Z) : Prop :=
  map tone (intervals sampleRate crossings) = leaderSyncB2 →
  ∃ l, demodulate crossings sampleRate = Ret l
       ∧ decodedBytes l = [178] ∧ state l = StateFindHeader.

(** ** Sample files *)

Definition byteOf (z : Z) : byte :=
  match Byte.of_N (Z.to_N z) with
  | Some b => b
  | None => x00
  end.

(** A canonical 44-byte RIFF/WAVE prefix (PCM format chunk of 16 bytes, then
    the head of the data chunk) followed by the data. *)
Definition wavFile (channels sampleRate bits : Z) (data : list byte) : list byte :=
  tagRIFF ++ map byteOf [0; 0; 0; 0] ++ tagWAVE
  ++ String.list_byte_of_string "fmt "%string
  ++ map byteOf [16; 0; 0; 0; 1; 0; channels; 0;
                 sampleRate mod 256; (sampleRate / 256) mod 256;
                 (sampleRate / 65536) mod 256; (sampleRate / 16777216) mod 256;
                 0; 0; 0; 0; 0; 0; bits; 0]
  ++ tagData ++ map byteOf [0; 0; 0; 0]
  ++ data.

(** A file system with one file, whatever its name. *)
Definition oneFile (f : list byte) : string → option (list byte) :=
  fun _ => Some f.

(** ** Vocabulary of the further properties *)

(** The test of the crossing loop:
    [(prevSample < 0 && sample >= 0) || (prevSample >= 0 && sample < 0)]. *)
Definition signChange (prevSample sample : F64.t) : bool :=
  let zero := F64.of_int 0 in
  (F64.ltb prevSample zero && F64.geb sample zero)
  || (F64.geb prevSample zero && F64.ltb sample zero).

(** Two samples that the crossing loop cannot tell apart. *)
Definition sameSign (a b : F64.t) : Prop :=
  F64.ltb a (F64.of_int 0) = F64.ltb b (F64.of_int 0)
  ∧ F64.geb a (F64.of_int 0) = F64.geb b (F64.of_int 0).

(** A square wave: runs of +1 and of -1 in turn, of the given lengths. *)
Definition level (positive : bool) : F64.t :=
  if positive then F64.of_int 1 else F64.of_int (-1).

Fixpoint squareWave (positive : bool) (runs : list nat) : list F64.t :=
  match runs with
  | [] => []
  | n :: rest => repeat (level positive) n ++ squareWave (negb positive) rest
  end.

(** Sample-and-hold upsampling: every sample [k] times. *)
Definition upsample (k : nat) (samples : list F64.t) : list F64.t :=
  flat_map (fun s => repeat s k) samples.


(** Two durations that no comparison of the loops tells apart: the same
    answers to [< 350us], [< 600us], [> 350us], [>= 350us] and [> 600us]. *)
Definition sameBand (d d' : F64.t) : Prop :=
  F64.ltb d ShortThreshold = F64.ltb d' ShortThreshold
  ∧ F64.ltb d LongThreshold = F64.ltb d' LongThreshold
  ∧ F64.gtb d ShortThreshold = F64.gtb d' ShortThreshold
  ∧ F64.geb d ShortThreshold = F64.geb d' ShortThreshold
  ∧ F64.gtb d LongThreshold = F64.gtb d' LongThreshold.


(** The bits of a byte, high bit first, and of a list of bytes. *)
Definition bitsOfByte (b : Z) : list bool :=
  map (Z.testbit b) [7; 6; 5; 4; 3; 2; 1; 0].

Definition bitsOfBytes (bytes : list Z) : list bool :=
  flat_map bitsOfByte bytes.

(** A tape as run lengths in samples: [leader] half-cycles of [medium]
    samples, the sync pair of two [short] ones, then two half-cycles per
    bit, [medium] for a 1 and [short] for a 0. *)
Definition runsOfBit (short medium : nat) (b : bool) : list nat :=
  if b then [medium; medium] else [short; short].

Definition tapeRuns (short medium leader : nat) (bytes : list Z) : list nat :=
  repeat medium leader ++ [short; short]
  ++ flat_map (runsOfBit short medium) (bitsOfBytes bytes).

(** The recording of a tape: a square wave with a lead-in run before the
    first crossing and a last run after the final one. *)
Definition tapeSamples (lead last short medium leader : nat) (bytes : list Z)
  : list F64.t :=
  squareWave true (lead :: tapeRuns short medium leader bytes ++ [last]).


(** What the second loop keeps true after [n] intervals: a byte costs 16
    intervals, and the data can only start after more than 50 header
    intervals and the two of the sync. *)
Definition sizeInv (n : nat) (l : locals) : Prop :=
  let bytes := Z.of_nat (length (decodedBytes l)) in
  0 ≤ bitCount l < 8
  ∧ match state l with
    | StateFindHeader =>
        0 ≤ headerCount l
        ∧ headerCount l + 16 * bytes + (if bytes =? 0 then 0 else 53)
          ≤ Z.of_nat n
    | StateFindSync => False
    | StateReadData => 53 + 16 * bytes + 2 * bitCount l ≤ Z.of_nat n
    end.

(** The accumulator holds [bitCount] bits and the output holds bytes. *)
Definition rangeInv (l : locals) : Prop :=
  0 ≤ bitCount l < 8
  ∧ 0 ≤ currentByte l < 2 ^ bitCount l
  ∧ Forall (fun b => 0 ≤ b < 256) (decodedBytes l).

(** The second loop is never in [StateFindSync], and its header counter is
    between 0 and the number of intervals read. *)
Definition counterInv (n : nat) (l : locals) : Prop :=
  0 ≤ bitCount l < 8
  ∧ state l ≠ StateFindSync
  ∧ 0 ≤ headerCount l ≤ Z.of_nat n.


(** A chunk of the container: its 4-byte tag, its 4-byte size field and its
    body. *)
Record chunk := mkChunk {
  chunkTag : list byte;
  chunkSizeField : list byte;
  chunkBody : list byte
}.

Definition chunkBytes (c : chunk) : list byte :=
  chunkTag c ++ chunkSizeField c ++ chunkBody c.

(** A chunk the search steps over: not the data chunk, and with a body of
    exactly the declared size (the search knows no pad byte). *)
Definition skippable (c : chunk) : Prop :=
  length (chunkTag c) = 4%nat ∧ length (chunkSizeField c) = 4%nat
  ∧ chunkTag c ≠ tagData
  ∧ length (chunkBody c) = Z.to_nat (uint32_at (chunkSizeField c) 0).

(** The elements of a list at the positions [skip], [skip + c],
    [skip + 2c], ...: with [skip = 0], the first value of every frame of
    [c] channels. *)
Fixpoint everyNth {A} (c skip : nat) (l : list A) : list A :=
  match l with
  | [] => []
  | x :: rest =>
      match skip with
      | O => x :: everyNth c (c - 1) rest
      | S k => everyNth c k rest
      end
  end.

(** A normalised sample: at least -1 and below 1. *)
Definition inUnit (s : F64.t) : bool :=
  F64.geb s (F64.of_int (-1)) && F64.ltb s (F64.of_int 1).




(** * Properties *)

(** ** Comparisons of durations *)

Lemma Qle_bool_reflect (x y : Q) : reflect (x <= y)%Q (Qle_bool x y).
Proof.
  destruct (Qle_bool x y) eqn:E; constructor.
  - by apply Qle_bool_iff.
  - intros H. apply Qle_bool_iff in H. congruence.
Qed.

(** Reduce every comparison with a threshold to an order fact on [Q]. *)
Ltac f64_order :=
  unfold F64.gtb, F64.geb, ShortThreshold, LongThreshold in *;
  repeat match goal with
         | d : F64.t |- _ => destruct d
         end;
  cbn [F64.ltb F64.leb] in *; unfold F64.Qltb in *;
  repeat match goal with
         | H : context [Qle_bool ?x ?y] |- _ =>
             destruct (Qle_bool_reflect x y); cbn [negb andb orb] in H
         | |- context [Qle_bool ?x ?y] =>
             destruct (Qle_bool_reflect x y); cbn [negb andb orb]
         end;
  cbn [negb andb orb] in *;
  try congruence; try (exfalso; lra).

Lemma ltb_geb_exclusive (x y : F64.t) : F64.ltb x y && F64.geb x y = false.
Proof. f64_order. Qed.

Lemma short_below_long d :
  F64.ltb d ShortThreshold = true → F64.ltb d LongThreshold = true.
Proof. intros H. f64_order. Qed.

Lemma not_short_geb d :
  F64.ltb d ShortThreshold = false → F64.ltb d LongThreshold = true →
  F64.geb d ShortThreshold = true.
Proof. intros H1 H2. f64_order. Qed.

Lemma gtb_long_not_ltb d :
  F64.gtb d LongThreshold = true →
  F64.ltb d LongThreshold = false ∧ F64.ltb d ShortThreshold = false.
Proof. intros H. split; f64_order. Qed.

Lemma tone_Short d : tone d = Short ↔ F64.ltb d ShortThreshold = true.
Proof.
  unfold tone, flags.
  destruct (F64.ltb d ShortThreshold), (F64.ltb d LongThreshold);
    intuition congruence.
Qed.

Lemma tone_Medium d :
  tone d = Medium ↔
  F64.ltb d ShortThreshold = false ∧ F64.ltb d LongThreshold = true.
Proof.
  unfold tone, flags.
  destruct (F64.ltb d ShortThreshold), (F64.ltb d LongThreshold);
    intuition congruence.
Qed.

Lemma tone_Long d :
  tone d = Long ↔
  F64.ltb d ShortThreshold = false ∧ F64.ltb d LongThreshold = false.
Proof.
  unfold tone, flags.
  destruct (F64.ltb d ShortThreshold), (F64.ltb d LongThreshold);
    intuition congruence.
Qed.

(** For a positive rate the duration is the exact quotient. *)
Lemma durationOf_pos rate a b :
  0 < rate →
  durationOf rate a b = F64.Fin (inject_Z (b - a) / inject_Z rate).
Proof.
  intros Hr. unfold durationOf, F64.of_int, F64.div, F64.sign. cbn [Qnum inject_Z].
  destruct (Z.compare_spec rate 0); try lia; reflexivity.
Qed.

(** ** The index loop and the interval recursion *)

Lemma intervals_length rate cs :
  length (intervals rate cs) = pred (length cs).
Proof.
  induction cs as [|a [|b cs'] IH]; [reflexivity..|].
  cbn [intervals length pred] in *. by rewrite IH.
Qed.

Lemma intervals_lookup rate cs j a b :
  cs !! j = Some a → cs !! S j = Some b →
  intervals rate cs !! j = Some (durationOf rate a b).
Proof.
  revert j. induction cs as [|x cs' IH]; intros j Ha Hb; [done|].
  destruct cs' as [|y cs'']; [by destruct j|].
  destruct j as [|j].
  - cbn in Ha, Hb. by simplify_eq.
  - change (intervals rate (y :: cs'') !! j = Some (durationOf rate a b)).
    by apply IH.
Qed.

Lemma index_Some {A} (s : list A) i x : s !! i = Some x → index s i = Ret x.
Proof. unfold index. by intros ->. Qed.

Lemma drop_intervals_nil rate cs j :
  (length cs ≤ S j)%nat → drop j (intervals rate cs) = [].
Proof.
  intros H. apply drop_ge. rewrite intervals_length. lia.
Qed.

Lemma drop_intervals_cons rate cs j :
  (S j < length cs)%nat →
  ∃ a b, cs !! j = Some a ∧ cs !! S j = Some b ∧
         drop j (intervals rate cs)
         = durationOf rate a b :: drop (S j) (intervals rate cs).
Proof.
  intros H.
  destruct (lookup_lt_is_Some_2 cs j) as [a Ha]; [lia|].
  destruct (lookup_lt_is_Some_2 cs (S j)) as [b Hb]; [lia|].
  exists a, b. split_and!; [done..|].
  apply drop_S. by apply intervals_lookup.
Qed.

(** The second loop never runs out of fuel and never indexes out of range:
    from index [j+1] it returns what the interval recursion computes on the
    durations from the [j]-th on. *)
Lemma loop2_runIntervals fuel : ∀ cs rate j l,
  (length cs ≤ fuel + S j)%nat →
  loop2 fuel cs rate (S j) l = Ret (runIntervals (drop j (intervals rate cs)) l).
Proof.
  induction fuel as [|fuel IH]; intros cs rate j l Hfuel.
  - cbn [loop2]. replace (S j <? length cs)%nat with false
      by (symmetry; apply Nat.ltb_ge; lia).
    rewrite drop_intervals_nil by lia. reflexivity.
  - cbn [loop2]. destruct (Nat.ltb_spec (S j) (length cs)) as [Hlt|Hge];
      [|by rewrite drop_intervals_nil by lia].
    destruct (drop_intervals_cons rate cs j Hlt) as (a & b & Ha & Hb & ->).
    unfold step2. cbn [index_pred].
    rewrite (index_Some _ _ _ Ha), (index_Some _ _ _ Hb). cbn [obind].
    cbn [runIntervals].
    destruct (flags (durationOf rate a b)) as [isShort isHeader] eqn:Hfl.
    cbn [fst snd].
    destruct (state l) eqn:Hst.
    + (* StateFindHeader *)
      destruct (isHeader || _) eqn:Hhdr.
      { cbn [obind]. apply IH. lia. }
      destruct ((50 <? headerCount l) && isShort) eqn:Hsync;
        [|cbn [obind]; apply IH; lia].
      destruct (Nat.ltb_spec (S (S j)) (length cs)) as [Hlt2|Hge2].
      * destruct (drop_intervals_cons rate cs (S j) Hlt2)
          as (b' & c & Hb' & Hc & ->).
        assert (b' = b) as -> by congruence.
        rewrite (index_Some _ _ _ Hc). cbn [obind].
        destruct (F64.ltb (durationOf rate b c) ShortThreshold).
        -- cbn [obind]. apply IH. lia.
        -- cbn [obind]. rewrite IH by lia.
           destruct (drop_intervals_cons rate cs (S j) Hlt2)
             as (b2 & c2 & Hb2 & Hc2 & ->).
           by simplify_eq.
      * cbn [obind]. rewrite IH by lia.
        by rewrite drop_intervals_nil by lia.
    + (* StateFindSync *)
      cbn [obind]. apply IH. lia.
    + (* StateReadData *)
      destruct (Nat.leb_spec (length cs) (S (S j))) as [Hge2|Hlt2].
      * cbn [obind]. rewrite IH by lia.
        by rewrite drop_intervals_nil by lia.
      * destruct (drop_intervals_cons rate cs (S j) Hlt2)
          as (b' & c & Hb' & Hc & ->).
        assert (b' = b) as -> by congruence.
        rewrite (index_Some _ _ _ Hc). cbn [obind].
        apply IH. lia.
Qed.

Lemma demodulate_runIntervals cs rate :
  demodulate cs rate = Ret (runIntervals (intervals rate cs) locals0).
Proof.
  unfold demodulate. rewrite (loop2_runIntervals _ cs rate 0) by lia.
  reflexivity.
Qed.

(** ** Transitions of the interval recursion *)

(** The test of the [StateFindHeader] case accepts a Long half-cycle, and a
    Medium one that lies strictly above 350us. *)
Lemma header_test_Long d :
  tone d = Long →
  snd (flags d) || (F64.gtb d ShortThreshold && F64.ltb d LongThreshold) = true.
Proof.
  intros [H1 H2]%tone_Long. unfold flags. by rewrite H1, H2.
Qed.

Lemma header_test_Medium d :
  tone d = Medium → F64.gtb d ShortThreshold = true →
  snd (flags d) || (F64.gtb d ShortThreshold && F64.ltb d LongThreshold) = true.
Proof.
  intros [H1 H2]%tone_Medium H3. unfold flags. by rewrite H1, H2, H3.
Qed.

Lemma header_test d :
  headerTone d →
  snd (flags d) || (F64.gtb d ShortThreshold && F64.ltb d LongThreshold) = true.
Proof.
  intros [H|[H1 H2]]; [by apply header_test_Long | by apply header_test_Medium].
Qed.

Lemma run_header hdr : ∀ rest l,
  state l = StateFindHeader →
  Forall headerTone hdr →
  runIntervals (hdr ++ rest) l
  = runIntervals rest
      (with_headerCount (headerCount l + Z.of_nat (length hdr)) l).
Proof.
  induction hdr as [|d hdr IH]; intros rest l Hst Hall.
  - cbn [app length Z.of_nat]. rewrite Z.add_0_r. by destruct l.
  - apply Forall_cons in Hall as [Hd Hall].
    cbn [app runIntervals]. rewrite Hst, (header_test d Hd).
    rewrite IH by done. f_equal.
    destruct l; unfold with_headerCount; cbn. f_equal. lia.
Qed.

Lemma run_sync d1 d2 rest l :
  state l = StateFindHeader → 50 < headerCount l →
  tone d1 = Short → tone d2 = Short →
  runIntervals (d1 :: d2 :: rest) l
  = runIntervals rest
      (with_bitCount 0 (with_currentByte 0 (with_state StateReadData l))).
Proof.
  intros Hst Hhc H1%tone_Short H2%tone_Short.
  cbn [runIntervals]. rewrite Hst. unfold flags. rewrite H1, H2. cbn [fst snd orb].
  replace (F64.gtb d1 ShortThreshold) with false
    by (clear -H1; symmetry; f64_order).
  cbn [andb]. by replace (50 <? headerCount l) with true by (symmetry; lia).
Qed.

Lemma pairBit_Short d1 d2 :
  tone d1 = Short → tone d2 = Short → pairBit d1 d2 = Some false.
Proof.
  intros H1%tone_Short H2%tone_Short. unfold pairBit. by rewrite H1, H2.
Qed.

Lemma pairBit_Medium d1 d2 :
  tone d1 = Medium → tone d2 = Medium → pairBit d1 d2 = Some true.
Proof.
  intros [H1 H1']%tone_Medium [H2 H2']%tone_Medium. unfold pairBit.
  rewrite H1, H1', H2, H2', !not_short_geb by done. reflexivity.
Qed.

Lemma readBit_pairBit d1 d2 b l :
  pairBit d1 d2 = Some b → readBit d1 d2 l = emit (pushBit b l).
Proof.
  unfold pairBit, readBit. intros H.
  destruct (F64.ltb d1 ShortThreshold && F64.ltb d2 ShortThreshold);
    [by simplify_eq|].
  destruct (_ && _); by simplify_eq.
Qed.

(** A run of well-formed pairs in [StateReadData] ingests their bits in
    order. *)
Lemma run_bits pairs : ∀ bits rest l,
  state l = StateReadData →
  Forall2 (fun p b => pairBit (fst p) (snd p) = Some b) pairs bits →
  runIntervals (flattenPairs pairs ++ rest) l
  = runIntervals rest (fold_left (fun l b => emit (pushBit b l)) bits l).
Proof.
  induction pairs as [|[d1 d2] pairs IH]; intros bits rest l Hst Hall.
  - apply Forall2_nil_inv_l in Hall as ->. reflexivity.
  - apply Forall2_cons_inv_l in Hall as (b & bits' & Hb & Hall & ->).
    cbn [flattenPairs map concat fst snd app] in *.
    cbn [runIntervals fold_left]. rewrite Hst.
    rewrite (readBit_pairBit _ _ _ _ Hb).
    apply IH; [|done].
    unfold emit, pushBit. destruct b, l; cbn in *;
      by destruct (_ =? 8).
Qed.

(** Eight bits pushed into an empty accumulator make one byte, first bit
    high, and leave the accumulator empty. *)
Lemma ingest8 bits l :
  length bits = 8%nat → bitCount l = 0 → currentByte l = 0 →
  fold_left (fun l b => emit (pushBit b l)) bits l
  = with_decodedBytes (decodedBytes l ++ [msbValue bits]) l.
Proof.
  intros Hlen Hbc Hcb. destruct l as [st out cb bc hc]. cbn in Hbc, Hcb. subst.
  do 8 (destruct bits as [|[] bits]; [done|..]);
    (destruct bits; [|done]); reflexivity.
Qed.

(** ** The leader, sync and 0xB2 sequence *)

Lemma map_repeat_Forall {A B} (f : A → B) (x : B) n : ∀ l,
  map f l = repeat x n → Forall (fun a => f a = x) l ∧ length l = n.
Proof.
  induction n as [|n IH]; intros [|a l] H; try discriminate; [done|].
  cbn in H. injection H as Ha Hl. destruct (IH _ Hl) as [? ?].
  split; [by constructor | cbn; congruence].
Qed.

Ltac uncons H l :=
  let Ht := fresh "Ht" in
  destruct l as [|? l]; [discriminate H|];
  cbn [map] in H; injection H as Ht H.

(** C1 (as amended): for a crossing sequence whose intervals classify as 60
    Medium intervals, each strictly longer than 350us, then two Short
    intervals, then the sixteen intervals of 10110010, the demodulator
    returns exactly the byte 0xB2 and ends in [StateReadData], with an empty
    accumulator and the header count of the leader. *)
Theorem demodulate_leaderSyncB2 (crossings : list Z) (sampleRate : Z) :
  map tone (intervals sampleRate crossings) = leaderSyncB2 →
  Forall (fun d => F64.gtb d ShortThreshold = true)
         (take 60 (intervals sampleRate crossings)) →
  demodulate crossings sampleRate = Ret (mkLocals StateReadData [178] 0 0 60).
Proof.
  intros Hmap Hstrict. rewrite demodulate_runIntervals.
  generalize dependent (intervals sampleRate crossings). intros ds Hmap Hstrict.
  unfold leaderSyncB2 in Hmap.
  apply map_eq_app in Hmap as (hdr & rest & -> & Hhdr & Hrest).
  apply map_repeat_Forall in Hhdr as [Hmed Hlen].
  rewrite take_app_length' in Hstrict by done.
  assert (Forall headerTone hdr) as Hhead.
  { apply Forall_forall. intros d Hd. right. split.
    - by apply (proj1 (Forall_forall _ _) Hmed).
    - by apply (proj1 (Forall_forall _ _) Hstrict). }
  cbn in Hrest. do 18 uncons Hrest rest. destruct rest; [|discriminate].
  rewrite run_header by done. rewrite Hlen.
  rewrite run_sync by (try done; cbn; lia).
  match goal with
  | |- context [runIntervals [?a1; ?a2; ?b1; ?b2; ?c1; ?c2; ?d1; ?d2;
                              ?e1; ?e2; ?f1; ?f2; ?g1; ?g2; ?h1; ?h2] _] =>
      change [a1; a2; b1; b2; c1; c2; d1; d2; e1; e2; f1; f2; g1; g2; h1; h2]
        with (flattenPairs [(a1, a2); (b1, b2); (c1, c2); (d1, d2);
                            (e1, e2); (f1, f2); (g1, g2); (h1, h2)] ++ [])
  end.
  rewrite (run_bits _ bitsB2) by
    (try done; repeat constructor; cbn [fst snd];
     first [by apply pairBit_Medium | by apply pairBit_Short]).
  rewrite ingest8 by done. reflexivity.
Qed.

Lemma demodulate_leaderSyncB2_witness :
  demodulate crossingsB2 44100 = Ret (mkLocals StateReadData [178] 0 0 60).
Proof.
  apply demodulate_leaderSyncB2.
  - vm_compute. reflexivity.
  - vm_compute. repeat constructor.
Defined.

(** C1 (as stated) fails on the 44.1kHz sequence [crossingsB2]: its
    intervals classify as required and the byte 0xB2 is returned, but the
    machine is left in [StateReadData], not [StateFindHeader]. *)
Lemma emitsB2ThenFindHeader_fails : ¬ emitsB2ThenFindHeader crossingsB2 44100.
Proof.
  intros H. destruct H as (l & Hrun & _ & Hst); [by vm_compute|].
  assert (demodulate crossingsB2 44100
          = Ret (mkLocals StateReadData [178] 0 0 60)) as E by (by vm_compute).
  rewrite E in Hrun. injection Hrun as <-. discriminate Hst.
Qed.

(** ** The boundary durations *)

(** On binary64 numbers, 7 samples at 20kHz are exactly the constant 350us
    and 3 samples at 5kHz exactly the constant 600us: neither [<] nor [>]
    holds between the quotient and the threshold. *)
Lemma binary64_350us :
  PrimFloat.ltb (Binary64.duration 7 20000) Binary64.ShortThreshold = false
  ∧ PrimFloat.ltb Binary64.ShortThreshold (Binary64.duration 7 20000) = false
  ∧ PrimFloat.leb Binary64.ShortThreshold (Binary64.duration 7 20000) = true.
Proof. by vm_compute. Qed.

Lemma binary64_600us :
  PrimFloat.ltb (Binary64.duration 3 5000) Binary64.LongThreshold = false
  ∧ PrimFloat.ltb Binary64.LongThreshold (Binary64.duration 3 5000) = false
  ∧ PrimFloat.ltb (Binary64.duration 1 5000) Binary64.ShortThreshold = true.
Proof. by vm_compute. Qed.

(** The same durations in the model. *)
Lemma model_350us :
  F64.ltb (durationOf 20000 0 7) ShortThreshold = false
  ∧ F64.gtb (durationOf 20000 0 7) ShortThreshold = false
  ∧ F64.geb (durationOf 20000 0 7) ShortThreshold = true.
Proof. by vm_compute. Qed.

Lemma model_600us :
  F64.ltb (durationOf 5000 0 3) LongThreshold = false
  ∧ F64.gtb (durationOf 5000 0 3) LongThreshold = false
  ∧ F64.ltb (durationOf 5000 3 4) ShortThreshold = true.
Proof. by vm_compute. Qed.

(** ** Short sample streams *)

Lemma detect_single i s : detect i s [s] = [].
Proof.
  cbn [detect]. rewrite ltb_geb_exclusive.
  rewrite andb_comm, ltb_geb_exclusive. reflexivity.
Qed.

(** C2: a stream of one sample has no crossing and decodes to no byte, but
    on the empty stream [samples[0]] is out of range: [processSamples]
    panics before any crossing is looked for. *)
Theorem processSamples_short_streams :
  (∀ sampleRate, crossingsOf [] = Panic ∧ processSamples [] sampleRate = Panic)
  ∧ (∀ s sampleRate,
       crossingsOf [s] = Ret [] ∧ processSamples [s] sampleRate = Ret []).
Proof.
  split; [done|]. intros s sampleRate.
  unfold processSamples, crossingsOf. cbn [index lookup list_lookup obind].
  by rewrite detect_single.
Qed.

(** ** The header counter at 350us *)

(** In [StateFindHeader] a Long interval, and a Medium one strictly above
    350us, advance the counter by one and change nothing else. *)
Lemma step2_findHeader_counts cs rate j l a b :
  cs !! j = Some a → cs !! S j = Some b →
  state l = StateFindHeader →
  headerTone (durationOf rate a b) →
  step2 cs rate (S j) l
  = Ret (S (S j), with_headerCount (headerCount l + 1) l).
Proof.
  intros Ha Hb Hst Hd. unfold step2. cbn [index_pred].
  rewrite (index_Some _ _ _ Ha), (index_Some _ _ _ Hb). cbn [obind].
  apply header_test in Hd.
  destruct (flags (durationOf rate a b)) as [isShort isHeader].
  cbn [snd] in Hd. by rewrite Hst, Hd.
Qed.

(** C3: in [StateFindHeader] with a count of 60, an interval of exactly
    350us (7 samples at 20kHz) is Medium, yet the iteration resets the
    counter instead of incrementing it.  On a 20kHz tape whose leader is made
    of such half-cycles the counter never passes the sync threshold and no
    byte is decoded, where Medium half-cycles one sample longer give 0xB2. *)
Theorem findHeader_350us_resets :
  tone (durationOf 20000 0 7) = Medium
  ∧ step2 [0; 7] 20000 1 (with_headerCount 60 locals0)
    = Ret (2%nat, with_headerCount 0 locals0)
  ∧ map tone (intervals 20000 crossings350) = leaderSyncB2
  ∧ demodulate crossings350 20000 = Ret locals0
  ∧ demodulate (crossingsFrom 0 (stepsOf 4 8 12 leaderSyncB2)) 20000
    = Ret (mkLocals StateReadData [178] 0 0 60).
Proof. by vm_compute. Qed.

(** ** The end-of-data test at 600us *)

(** In [StateReadData] a pair with a half-cycle strictly above 600us ends
    the data: back to [StateFindHeader] with the counter at 0.  Nothing is
    appended, and the bits gathered so far stay behind until the next sync
    clears them. *)
Lemma readBit_above_600us d1 d2 l :
  F64.gtb d1 LongThreshold || F64.gtb d2 LongThreshold = true →
  bitCount l ≠ 8 →
  readBit d1 d2 l = with_headerCount 0 (with_state StateFindHeader l).
Proof.
  intros Hlong Hbc. unfold readBit.
  assert (F64.ltb d1 ShortThreshold && F64.ltb d2 ShortThreshold = false) as ->.
  { apply orb_true_iff in Hlong as [H|H];
      apply gtb_long_not_ltb in H as [_ ->];
      [done|by rewrite andb_comm]. }
  assert ((F64.geb d1 ShortThreshold && F64.ltb d1 LongThreshold)
          && (F64.geb d2 ShortThreshold && F64.ltb d2 LongThreshold) = false)
    as ->.
  { apply orb_true_iff in Hlong as [H|H];
      apply gtb_long_not_ltb in H as [-> _].
    - by rewrite andb_false_r.
    - by rewrite !andb_false_r. }
  rewrite Hlong. unfold emit. cbn.
  by destruct (Z.eqb_spec (bitCount l) 8).
Qed.

Lemma step2_readData_above_600us cs rate j l a b c :
  cs !! j = Some a → cs !! S j = Some b → cs !! S (S j) = Some c →
  state l = StateReadData → 0 ≤ bitCount l < 8 →
  F64.gtb (durationOf rate a b) LongThreshold
  || F64.gtb (durationOf rate b c) LongThreshold = true →
  step2 cs rate (S j) l
  = Ret (S (S (S j)), with_headerCount 0 (with_state StateFindHeader l)).
Proof.
  intros Ha Hb Hc Hst Hbc Hlong. unfold step2. cbn [index_pred].
  rewrite (index_Some _ _ _ Ha), (index_Some _ _ _ Hb), (index_Some _ _ _ Hc).
  cbn [obind]. destruct (flags (durationOf rate a b)). rewrite Hst.
  assert (S (S j) < length cs)%nat as Hlen by (by eapply lookup_lt_Some).
  destruct (Nat.leb_spec (length cs) (S (S j))); [lia|].
  cbn [obind]. by rewrite readBit_above_600us by (done || lia).
Qed.

(** C4: in [StateReadData] with three bits in the accumulator, a pair whose
    first half-cycle is exactly 600us (3 samples at 5kHz) is Long, yet the
    iteration changes nothing: the state stays [StateReadData] and the
    partial byte is kept.  On the 5kHz tape [crossings600] the three bits
    read before such a pair are completed by the five bits after it, and the
    byte 0xB2 made of both is returned. *)
Theorem readData_600us_ignored :
  let l := mkLocals StateReadData [] 5 3 60 in
  tone (durationOf 5000 0 3) = Long
  ∧ step2 [0; 3; 4] 5000 1 l = Ret (3%nat, l)
  ∧ nth 68 (map tone (intervals 5000 crossings600)) Short = Long
  ∧ demodulate crossings600 5000 = Ret (mkLocals StateReadData [178] 0 0 60).
Proof. by vm_compute. Qed.

(** ** The three bands *)

(** C5: for a positive sample rate the interval between two crossings is
    Short exactly when its duration is below 350us, Medium exactly when it is
    at least 350us and below 600us, and Long exactly when it is at least
    600us. *)
Theorem tone_bands (a b sampleRate : Z) :
  0 < sampleRate →
  let duration := (inject_Z (b - a) / inject_Z sampleRate)%Q in
  let t := tone (durationOf sampleRate a b) in
  (t = Short ↔ (duration < 350 # 1000000)%Q)
  ∧ (t = Medium ↔ (350 # 1000000 <= duration)%Q ∧ (duration < 600 # 1000000)%Q)
  ∧ (t = Long ↔ (600 # 1000000 <= duration)%Q).
Proof.
  intros Hrate duration t. subst t. rewrite durationOf_pos by done.
  fold duration. generalize duration. clear. intros q.
  unfold tone, flags, ShortThreshold, LongThreshold. cbn [F64.ltb].
  unfold F64.Qltb.
  destruct (Qle_bool_reflect (350 # 1000000) q),
           (Qle_bool_reflect (600 # 1000000) q); cbn [negb];
    (split_and!; split; intros; try split; try discriminate; try reflexivity;
     try lra; try (exfalso; lra)).
  all: try (destruct H; exfalso; lra).
Qed.

Lemma tone_bands_witness :
  tone (durationOf 44100 100 110) = Short
  ∧ tone (durationOf 20000 0 7) = Medium
  ∧ tone (durationOf 5000 0 3) = Long.
Proof.
  split_and!.
  - apply (tone_bands 100 110 44100); [lia|]. by vm_compute.
  - apply (tone_bands 0 7 20000); [lia|]. by vm_compute.
  - apply (tone_bands 0 3 5000); [lia|]. by vm_compute.
Defined.

(** ** The bit accumulator *)

Lemma pushBit_fields b l :
  bitCount (pushBit b l) = bitCount l + 1
  ∧ decodedBytes (pushBit b l) = decodedBytes l
  ∧ state (pushBit b l) = state l
  ∧ currentByte (pushBit b l)
    = (2 * currentByte l) mod 256 + (if b then 1 else 0).
Proof.
  unfold pushBit, wrap8. rewrite Z.shiftl_mul_pow2 by lia.
  replace (currentByte l * 2 ^ 1) with (2 * currentByte l) by lia.
  destruct b; cbn; split_and!; try done; [|lia].
  assert ((2 * currentByte l) mod 256 = 2 * (currentByte l mod 128)) as ->.
  { replace 256 with (2 * 128) by lia. rewrite Zmult_mod_distr_l. lia. }
  assert (0 ≤ currentByte l mod 128) as Hnn by (apply Z.mod_pos_bound; lia).
  destruct (currentByte l mod 128) as [|p|p]; [reflexivity|reflexivity|lia].
Qed.







(** An instance: the run on [crossingsB2] passes from a count of 7 to the
    appended byte 0xB2. *)
Lemma bit_accumulator_example :
  let before := mkLocals StateReadData [] 89 7 60 in
  step2 crossingsB2 44100 77 before
  = Ret (79%nat, mkLocals StateReadData [178] 0 0 60)
  ∧ msbValue bitsB2 = 178.
Proof. by vm_compute. Qed.

(** ** The first pass *)

(** An iteration of the first loop returns, and writes nothing but zeros to
    the accumulator and nothing at all to the output. *)
Lemma step1_spec cs rate j l a b :
  cs !! j = Some a → cs !! S j = Some b →
  ∃ l', step1 cs rate (S j) l = Ret l'
        ∧ decodedBytes l' = decodedBytes l
        ∧ ((currentByte l' = currentByte l ∧ bitCount l' = bitCount l)
           ∨ (currentByte l' = 0 ∧ bitCount l' = 0)).
Proof.
  intros Ha Hb. unfold step1. cbn [index_pred].
  rewrite (index_Some _ _ _ Ha), (index_Some _ _ _ Hb). cbn [obind].
  destruct (flags (durationOf rate a b)) as [isShort isHeader].
  destruct (state l); repeat case_match; eexists; split; try reflexivity;
    cbn; auto.
Qed.

Lemma loop1_spec fuel : ∀ cs rate j l,
  (length cs ≤ fuel + S j)%nat →
  currentByte l = 0 → bitCount l = 0 →
  ∃ l', loop1 fuel cs rate (S j) l = Ret l'
        ∧ decodedBytes l' = decodedBytes l
        ∧ currentByte l' = 0 ∧ bitCount l' = 0.
Proof.
  induction fuel as [|fuel IH]; intros cs rate j l Hfuel Hcb Hbc; cbn [loop1];
    destruct (Nat.ltb_spec (S j) (length cs)) as [Hlt|Hge];
    try lia; try (by exists l).
  destruct (lookup_lt_is_Some_2 cs j) as [a Ha]; [lia|].
  destruct (lookup_lt_is_Some_2 cs (S j)) as [b Hb]; [lia|].
  destruct (step1_spec cs rate j l a b Ha Hb) as (l1 & -> & Hd & Hacc).
  cbn [obind].
  destruct (IH cs rate (S j) l1) as (l' & Hl' & Hd' & Hz); [lia|lia|lia|].
  exists l'. split; [done|]. split; [congruence|done].
Qed.

Lemma first_pass_restart cs rate :
  ∃ l, loop1 (length cs) cs rate 1 locals0 = Ret l ∧ restart l = locals0.
Proof.
  destruct (loop1_spec (length cs) cs rate 0 locals0) as (l & Hl & Hd & Hc & Hb);
    [lia|done|done|].
  exists l. split; [done|]. destruct l. cbn in *. by subst.
Qed.

Lemma processSamples_single_pass samples sampleRate :
  processSamples samples sampleRate
  = processSamplesSinglePass samples sampleRate.
Proof.
  unfold processSamples, processSamplesSinglePass.
  destruct (crossingsOf samples) as [cs| | | |]; try reflexivity.
  cbn [obind]. destruct (first_pass_restart cs sampleRate) as (l & Hl & Hr).
  rewrite Hl. cbn [obind]. rewrite Hr. reflexivity.
Qed.

(** C7: the first pass is dead code.  It always returns, and after the
    statements that follow it ([state = StateFindHeader], [headerCount = 0])
    every local has the value it had before the pass; [processSamples]
    therefore returns what the single pass over the crossings returns. *)
Theorem first_pass_dead :
  (∀ crossings sampleRate,
     ∃ l, loop1 (length crossings) crossings sampleRate 1 locals0 = Ret l
          ∧ restart l = locals0)
  ∧ (∀ samples sampleRate,
       processSamples samples sampleRate
       = processSamplesSinglePass samples sampleRate).
Proof.
  split; [apply first_pass_restart | apply processSamples_single_pass].
Qed.

(** ** Determinism *)

Lemma processSamples_returns s samples rate :
  ∃ bytes, processSamples (s :: samples) rate = Ret bytes.
Proof.
  rewrite processSamples_single_pass.
  unfold processSamplesSinglePass, crossingsOf. cbn [index lookup list_lookup obind].
  rewrite demodulate_runIntervals. cbn [obind]. eauto.
Qed.



(** ** The container reader *)

Lemma readFull_inr n f bs rest :
  readFull n f = inr (bs, rest) →
  bs = take n f ∧ rest = drop n f ∧ (n ≤ length f)%nat.
Proof.
  unfold readFull. destruct (Nat.leb_spec n (length f)); [|by destruct f].
  by intros [= <- <-].
Qed.

(** The search for the data chunk ends: it finds the chunk or fails. *)
Lemma findDataChunk_total fuel : ∀ f,
  (length f < fuel)%nat →
  (∃ data, findDataChunk fuel f = Ret data)
  ∨ (∃ e, findDataChunk fuel f = Fail e).
Proof.
  induction fuel as [|fuel IH]; intros f Hfuel; [lia|].
  cbn [findDataChunk].
  destruct (readFull 4 f) as [[]|[chunkID f1]] eqn:H1; [right; eauto..|].
  apply readFull_inr in H1 as (_ & -> & Hlen1).
  destruct (readFull 4 (drop 4 f)) as [e|[size f2]] eqn:H2; [right; eauto|].
  apply readFull_inr in H2 as (_ & -> & Hlen2).
  destruct (bytes_eqb chunkID tagData); [left; eauto|].
  apply IH. rewrite !length_drop. lia.
Qed.

(** C8: on a file whose header gives a sample width other than 8 or 16,
    [Decode] returns an error and no bytes; when the file is a RIFF/WAVE
    container in which a data chunk is found, the error is the
    unsupported-width one. *)
Theorem unsupported_bits (fs : string → option (list byte)) (filename : string)
    (f rest : list byte) (header : WavHeader) :
  fs filename = Some f →
  readHeader f = Ret (header, rest) →
  BitsPerSample header ≠ 8 → BitsPerSample header ≠ 16 →
  (∃ e, Decode fs filename = Fail e)
  ∧ (bytes_eqb (ChunkID header) tagRIFF = true →
     bytes_eqb (Format header) tagWAVE = true →
     ∀ data, findDataChunk (S (length rest)) rest = Ret data →
             Decode fs filename = Fail (ErrUnsupportedBits (BitsPerSample header))).
Proof.
  intros Hopen Hhdr H8 H16. unfold Decode. rewrite Hopen, Hhdr. cbn [obind].
  assert (∀ data, readSamples header data
                  = Fail (ErrUnsupportedBits (BitsPerSample header))) as Hrs.
  { intros data. unfold readSamples.
    destruct (Z.eqb_spec (BitsPerSample header) 8); [done|].
    by destruct (Z.eqb_spec (BitsPerSample header) 16). }
  split.
  - destruct (negb _ || negb _); [eauto|].
    destruct (findDataChunk_total (S (length rest)) rest) as [[d ->]|[e ->]];
      [lia| |]; cbn [obind]; [rewrite Hrs|]; eauto.
  - intros -> -> data ->. cbn [negb orb obind]. by rewrite Hrs.
Qed.

Lemma unsupported_bits_witness :
  Decode (oneFile (wavFile 1 44100 24 (map byteOf [1; 2; 3; 4; 5; 6])))
         "tape.wav"%string
  = Fail (ErrUnsupportedBits 24).
Proof.
  edestruct (unsupported_bits
               (oneFile (wavFile 1 44100 24 (map byteOf [1; 2; 3; 4; 5; 6])))
               "tape.wav"%string) as [_ H];
    [reflexivity | reflexivity | by vm_compute | by vm_compute |].
  exact (H eq_refl eq_refl _ eq_refl).
Defined.

(** ** The 16-bit blocks *)

Lemma readFull_app n f tail :
  (n ≤ length f)%nat →
  readFull n (f ++ tail) = inr (take n f, drop n f ++ tail)
  ∧ readFull n f = inr (take n f, drop n f).
Proof.
  intros H. unfold readFull. rewrite length_app.
  destruct (Nat.leb_spec n (length f + length tail)); [|lia].
  destruct (Nat.leb_spec n (length f)); [|lia].
  by rewrite take_app_le, drop_app_le by done.
Qed.

Lemma readFull_short n f :
  (length f < n)%nat → ∃ e, readFull n f = inl e.
Proof.
  intros H. unfold readFull. destruct (Nat.leb_spec n (length f)); [lia|].
  destruct f; eauto.
Qed.

(** After [k] whole blocks, fewer than [blockBytes] further bytes add
    nothing to the samples. *)
Lemma read16_blocks numChannels tail k : ∀ f fuel fuel',
  length f = (k * blockBytes)%nat → (length tail < blockBytes)%nat →
  (k < fuel)%nat → (k < fuel')%nat →
  read16 fuel numChannels (f ++ tail) = read16 fuel' numChannels f.
Proof.
  induction k as [|k IH]; intros f fuel fuel' Hlen Htail Hfuel Hfuel';
    destruct fuel as [|fuel]; [lia| |lia|]; (destruct fuel' as [|fuel']; [lia|]);
    cbn [read16].
  - destruct f; [|done]. cbn [app].
    destruct (readFull_short blockBytes tail Htail) as [e ->].
    destruct (readFull_short blockBytes []) as [e' ->]; [cbn; lia|]. reflexivity.
  - destruct (readFull_app blockBytes f tail) as [-> ->]; [lia|].
    destruct (leftChannel _ _ _); cbn [obind]; try reflexivity.
    rewrite (IH (drop blockBytes f) fuel fuel'); [done| |done|lia..].
    rewrite length_drop. lia.
Qed.

Lemma strideFrom_one {A} fuel : ∀ i (buf : list A),
  (length buf ≤ fuel + i)%nat →
  strideFrom fuel 1 i (length buf) buf = Ret (drop i buf).
Proof.
  induction fuel as [|fuel IH]; intros i buf Hfuel; cbn [strideFrom];
    destruct (Nat.ltb_spec i (length buf)) as [Hlt|Hge];
    try lia; try (by rewrite drop_ge by lia).
  destruct (lookup_lt_is_Some_2 buf i Hlt) as [x Hx].
  rewrite (index_Some _ _ _ Hx). cbn [obind].
  replace (i + 1)%nat with (S i) by lia. rewrite IH by lia. cbn [obind].
  by rewrite (drop_S _ _ _ Hx).
Qed.

Lemma leftChannel_one {A} (buf : list A) :
  leftChannel 1 (length buf) buf = Ret buf.
Proof.
  unfold leftChannel. destruct (Nat.eqb_spec (length buf) 0) as [E|E].
  - by destruct buf.
  - change (1 =? 0) with false. change (Z.to_nat 1) with 1%nat.
    by rewrite (strideFrom_one _ 0) by lia.
Qed.

Lemma int16s_app n : ∀ a b,
  length a = (2 * n)%nat → int16s (a ++ b) = int16s a ++ int16s b.
Proof.
  induction n as [|n IH]; intros a b Hlen.
  - by destruct a.
  - destruct a as [|b0 [|b1 a]]; cbn in Hlen; try lia.
    cbn [app int16s]. rewrite IH by lia. reflexivity.
Qed.

Lemma int16s_length n : ∀ a,
  length a = (2 * n)%nat → length (int16s a) = n.
Proof.
  induction n as [|n IH]; intros a Hlen.
  - by destruct a.
  - destruct a as [|b0 [|b1 a]]; cbn in Hlen; try lia.
    cbn [int16s length]. rewrite IH by lia. reflexivity.
Qed.

(** With one channel, whole blocks give one sample per 16-bit value. *)
Lemma read16_mono k : ∀ f fuel,
  length f = (k * blockBytes)%nat → (k < fuel)%nat →
  read16 fuel 1 f = Ret (map sample16 (int16s f)).
Proof.
  induction k as [|k IH]; intros f fuel Hlen Hfuel;
    (destruct fuel as [|fuel]; [lia|]); cbn [read16].
  - by destruct f.
  - destruct (readFull_app blockBytes f []) as [_ ->]; [lia|].
    rewrite leftChannel_one. cbn [obind].
    rewrite (IH (drop blockBytes f)) by (rewrite ?length_drop; lia).
    cbn [obind]. rewrite <- map_app, <- (int16s_app blockValues).
    + by rewrite take_drop.
    + rewrite length_take. unfold blockBytes, blockValues in *. lia.
Qed.

(** C10: the 16-bit path reads the data in blocks of 1024 values (2048
    bytes); when whole blocks are followed by fewer bytes than one block
    holds, the samples are those of the whole blocks alone, as if the file
    ended at the last whole block.  With one channel they are the
    normalised values of the whole blocks, 1024 per block, and nothing of
    the partial block. *)
Theorem read16_partial_block (header : WavHeader) (f tail : list byte) (k : nat) :
  BitsPerSample header = 16 →
  length f = (k * blockBytes)%nat →
  (length tail < blockBytes)%nat →
  readSamples header (f ++ tail) = readSamples header f
  ∧ (NumChannels header = 1 →
     readSamples header (f ++ tail) = Ret (map sample16 (int16s f))
     ∧ length (int16s f) = (k * blockValues)%nat).
Proof.
  intros Hbits Hlen Htail.
  assert (readSamples header (f ++ tail) = readSamples header f) as Heq.
  { unfold readSamples. rewrite Hbits. cbn [Z.eqb Pos.eqb].
    apply (read16_blocks _ _ k); [done|done|rewrite length_app|];
      unfold blockBytes in *; lia. }
  split; [done|]. intros Hmono. rewrite Heq. split.
  - unfold readSamples. rewrite Hbits, Hmono. cbn [Z.eqb Pos.eqb].
    apply (read16_mono k); [done|]. unfold blockBytes in *. lia.
  - apply int16s_length. unfold blockBytes, blockValues in *. lia.
Qed.

(** A block followed by 1023 values: the 1023 values are dropped. *)
Lemma read16_partial_block_witness :
  let header := decodeHeader (take 36 (wavFile 1 44100 16 [])) in
  let f := repeat "x"%byte 2048 in
  let tail := repeat "y"%byte 2046 in
  readSamples header (f ++ tail) = readSamples header f
  ∧ (NumChannels header = 1 →
     readSamples header (f ++ tail) = Ret (map sample16 (int16s f))
     ∧ length (int16s f) = (1 * blockValues)%nat).
Proof.
  intros header f tail. apply (read16_partial_block header f tail 1).
  - by vm_compute.
  - by vm_compute.
  - apply Nat.ltb_lt. by vm_compute.
Defined.

(** Fewer than 1024 values give no sample at all, and [processSamples] then
    panics on the empty stream. *)
Lemma decode_short_16bit_file :
  let f := wavFile 1 44100 16 (repeat "y"%byte 2046) in
  readSamples (decodeHeader (take 36 f)) (drop 44 f) = Ret []
  ∧ Decode (oneFile f) "tape.wav"%string = Panic.
Proof. by vm_compute. Qed.

(** ** Every loop of [Decode] is given enough fuel *)

Lemma u8_nonneg b : 0 ≤ u8 b.
Proof. unfold u8. lia. Qed.

Lemma uint16_at_nonneg bs i : 0 ≤ uint16_at bs i.
Proof.
  unfold uint16_at. apply Z.lor_nonneg. split; [apply u8_nonneg|].
  apply Z.shiftl_nonneg, u8_nonneg.
Qed.

Lemma strideFrom_total {A} fuel : ∀ c i n (buf : list A),
  (1 ≤ c)%nat → (n ≤ length buf)%nat → (n ≤ fuel + i)%nat →
  ∃ r, strideFrom fuel c i n buf = Ret r.
Proof.
  induction fuel as [|fuel IH]; intros c i n buf Hc Hn Hfuel; cbn [strideFrom];
    destruct (Nat.ltb_spec i n) as [Hlt|Hge]; try lia; eauto.
  destruct (lookup_lt_is_Some_2 buf i) as [x Hx]; [lia|].
  rewrite (index_Some _ _ _ Hx). cbn [obind].
  destruct (IH c (i + c)%nat n buf) as [r ->]; [lia..|]. cbn [obind]. eauto.
Qed.

Lemma leftChannel_total {A} c n (buf : list A) :
  0 ≤ c → (n ≤ length buf)%nat →
  leftChannel c n buf = Diverge ∨ ∃ r, leftChannel c n buf = Ret r.
Proof.
  intros Hc Hn. unfold leftChannel.
  destruct (Nat.eqb_spec n 0); [right; eauto|].
  destruct (Z.eqb_spec c 0); [by left|right].
  apply strideFrom_total; lia.
Qed.

Lemma read8_total fuel : ∀ c f,
  0 ≤ c → (length f < fuel)%nat →
  read8 fuel c f = Diverge ∨ ∃ r, read8 fuel c f = Ret r.
Proof.
  induction fuel as [|fuel IH]; intros c f Hc Hfuel; [lia|]. cbn [read8].
  set (n := Nat.min 1024 (length f)).
  destruct (Nat.eqb_spec n 0) as [E|E]; [right; eauto|].
  destruct (leftChannel_total c n (take n f) Hc) as [->|[s ->]];
    [rewrite length_take; lia|by left|]. cbn [obind].
  destruct (IH c (drop n f) Hc) as [->|[r ->]];
    [rewrite length_drop; lia|by left|]. cbn [obind]. right. eauto.
Qed.

Lemma read16_total fuel : ∀ c f,
  0 ≤ c → (length f < fuel)%nat →
  read16 fuel c f = Diverge ∨ ∃ r, read16 fuel c f = Ret r.
Proof.
  induction fuel as [|fuel IH]; intros c f Hc Hfuel; [lia|]. cbn [read16].
  destruct (readFull blockBytes f) as [e|[bs f']] eqn:Hrd; [right; eauto|].
  apply readFull_inr in Hrd as (-> & -> & Hlen).
  destruct (leftChannel_total c (length (int16s (take blockBytes f)))
              (int16s (take blockBytes f)) Hc) as [->|[s ->]];
    [done|by left|]. cbn [obind].
  destruct (IH c (drop blockBytes f) Hc) as [->|[r ->]];
    [rewrite length_drop; unfold blockBytes in *; lia|by left|].
  cbn [obind]. right. eauto.
Qed.

(** [Decode] has a definite outcome on every file: the bytes, an error, the
    panic on an empty sample stream, or the endless loop of a channel count
    of 0. *)
Lemma Decode_definite fs filename : Decode fs filename ≠ NoFuel.
Proof.
  unfold Decode. destruct (fs filename) as [f|]; [|done].
  unfold readHeader. destruct (readFull 36 f) as [e|[bs rest]]; [done|].
  cbn [obind]. destruct (negb _ || negb _); [done|].
  destruct (findDataChunk_total (S (length rest)) rest) as [[d ->]|[e ->]];
    [lia| |done]. cbn [obind].
  assert (0 ≤ NumChannels (decodeHeader bs)) as Hc by apply uint16_at_nonneg.
  assert (readSamples (decodeHeader bs) d = Diverge
          ∨ (∃ e, readSamples (decodeHeader bs) d = Fail e)
          ∨ ∃ s, readSamples (decodeHeader bs) d = Ret s) as Hrs.
  { unfold readSamples.
    destruct (BitsPerSample _ =? 8);
      [destruct (read8_total (S (length d)) _ d Hc) as [?|?]; [lia|auto..]|].
    destruct (BitsPerSample _ =? 16);
      [destruct (read16_total (S (length d)) _ d Hc) as [?|?]; [lia|auto..]|].
    right. left. eauto. }
  destruct Hrs as [->|[[e ->]|[s ->]]]; [done..|]. cbn [obind].
  destruct s as [|x s]; [done|].
  by destruct (processSamples_returns x s (SampleRate (decodeHeader bs))) as [b ->].
Qed.

(** * Further properties of the code *)

(** ** The crossing loop *)

Lemma detect_signChange i prev s rest :
  detect i prev (s :: rest)
  = if signChange prev s then i :: detect (i + 1) s rest
    else detect (i + 1) s rest.
Proof. reflexivity. Qed.

Lemma signChange_same s : signChange s s = false.
Proof.
  unfold signChange. rewrite ltb_geb_exclusive.
  by rewrite andb_comm, ltb_geb_exclusive.
Qed.

(** Where the crossings of a stream lie: [c] is recorded exactly when the
    sample at [c] and the one before it are on different sides of zero. *)
Lemma detect_elem samples : ∀ i prev c,
  c ∈ detect i prev samples ↔
  ∃ k a b, c = i + Z.of_nat k
           ∧ (prev :: samples) !! k = Some a ∧ samples !! k = Some b
           ∧ signChange a b = true.
Proof.
  induction samples as [|s rest IH]; intros i prev c.
  - cbn. split; [by intros ?%elem_of_nil|]. by intros (k & a & b & _ & _ & ? & _).
  - rewrite detect_signChange. split.
    + intros Hin.
      assert (c = i ∧ signChange prev s = true ∨ c ∈ detect (i + 1) s rest)
        as [[-> Hsc]|Hrest].
      { destruct (signChange prev s); [|by right].
        apply elem_of_cons in Hin as [->|?]; [by left|by right]. }
      * exists 0%nat, prev, s. split_and!; [lia|done..].
      * apply IH in Hrest as (k & a & b & -> & Ha & Hb & Hsc).
        exists (S k), a, b. split_and!; [lia|done..].
    + intros (k & a & b & -> & Ha & Hb & Hsc). destruct k as [|k].
      * cbn in Ha, Hb. simplify_eq. rewrite Hsc.
        replace (i + Z.of_nat 0) with i by lia. apply elem_of_cons. by left.
      * assert (i + Z.of_nat (S k) ∈ detect (i + 1) s rest) as Hin.
        { apply IH. exists k, a, b. split_and!; [lia|done..]. }
        destruct (signChange prev s); [apply elem_of_cons; by right|done].
Qed.

Lemma detect_bounds samples : ∀ i prev,
  Forall (fun c => i ≤ c < i + Z.of_nat (length samples)) (detect i prev samples).
Proof.
  induction samples as [|s rest IH]; intros i prev; [constructor|].
  rewrite detect_signChange.
  assert (Forall (fun c => i ≤ c < i + Z.of_nat (length (s :: rest)))
                 (detect (i + 1) s rest)) as Hrest.
  { eapply Forall_impl; [apply IH|]. cbn [length]. intros c Hc. cbn beta in Hc. lia. }
  destruct (signChange prev s); [|done].
  constructor; [cbn [length]; lia|done].
Qed.

Lemma detect_sorted samples : ∀ i prev,
  StronglySorted Z.lt (detect i prev samples).
Proof.
  induction samples as [|s rest IH]; intros i prev; [constructor|].
  rewrite detect_signChange. destruct (signChange prev s); [|apply IH].
  constructor; [apply IH|].
  eapply Forall_impl; [apply detect_bounds|]. intros c Hc. cbn beta in Hc. lia.
Qed.

Lemma detect_first s rest : detect 0 s (s :: rest) = detect 1 s rest.
Proof. by rewrite detect_signChange, signChange_same. Qed.

Lemma crossingsOf_cons s rest : crossingsOf (s :: rest) = Ret (detect 1 s rest).
Proof. unfold crossingsOf. cbn [index lookup list_lookup obind]. by rewrite detect_first. Qed.

(** X1: the crossing indices are strictly increasing and lie between 1 and
    the last index of the stream; index 0 is never a crossing, so there are
    fewer crossings than samples. *)
Theorem crossings_sorted_in_range (samples : list F64.t) (crossings : list Z) :
  crossingsOf samples = Ret crossings →
  StronglySorted Z.lt crossings
  ∧ Forall (fun c => 1 ≤ c < Z.of_nat (length samples)) crossings
  ∧ (length crossings < length samples)%nat.
Proof.
  destruct samples as [|s rest]; [done|].
  rewrite crossingsOf_cons. intros Hcs.
  assert (crossings = detect 1 s rest) as -> by congruence. clear Hcs.
  assert (Forall (fun c => 1 ≤ c < Z.of_nat (length (s :: rest))) (detect 1 s rest))
    as Hb.
  { eapply Forall_impl; [apply detect_bounds|]. cbn [length]. intros c Hc.
    cbn beta in Hc. lia. }
  pose proof (detect_sorted rest 1 s) as Hs.
  split_and!; [done..|].
  (* a strictly increasing list inside 1..n-1 has fewer than n entries *)
  assert (∀ cs lo, StronglySorted Z.lt cs → Forall (fun c => lo ≤ c) cs →
                   ∀ hi, Forall (fun c => c < hi) cs →
                   Z.of_nat (length cs) ≤ Z.max 0 (hi - lo)) as Hcount.
  { clear. induction cs as [|c cs IH]; intros lo Hs Hlo hi Hhi; [cbn; lia|].
    apply StronglySorted_inv in Hs as [Hs Hc].
    apply Forall_cons in Hlo as [Hclo _]. apply Forall_cons in Hhi as [Hchi Hhi].
    specialize (IH (c + 1) Hs).
    assert (Forall (fun c' => c + 1 ≤ c') cs) as Hlo'.
    { eapply Forall_impl; [exact Hc|]. intros; cbn beta in *; lia. }
    specialize (IH Hlo' hi Hhi). cbn [length]. lia. }
  specialize (Hcount (detect 1 s rest) 1 Hs).
  assert (Forall (fun c => 1 ≤ c) (detect 1 s rest)) as H1
    by (eapply Forall_impl; [exact Hb|]; intros; cbn beta in *; lia).
  assert (Forall (fun c => c < Z.of_nat (length (s :: rest))) (detect 1 s rest)) as H2
    by (eapply Forall_impl; [exact Hb|]; intros; cbn beta in *; lia).
  specialize (Hcount H1 _ H2). cbn [length] in *. lia.
Qed.

Lemma crossings_sorted_in_range_witness :
  StronglySorted Z.lt [1; 3]
  ∧ Forall (fun c => 1 ≤ c < Z.of_nat (length (squareWave true [1; 2; 1]%nat))) [1; 3]
  ∧ (length [1; 3] < length (squareWave true [1; 2; 1]%nat))%nat.
Proof.
  apply (crossings_sorted_in_range (squareWave true [1; 2; 1]%nat)). reflexivity.
Defined.

(** X2: an index is a crossing exactly when it is at least 1 and the sample
    there and the sample before it lie on different sides of zero (zero
    counting as non-negative). *)
Theorem crossing_iff_sign_change (samples : list F64.t) (crossings : list Z) :
  crossingsOf samples = Ret crossings →
  ∀ c, c ∈ crossings ↔
       ∃ k a b, c = Z.of_nat (S k)
                ∧ samples !! k = Some a ∧ samples !! S k = Some b
                ∧ signChange a b = true.
Proof.
  destruct samples as [|s rest]; [done|].
  rewrite crossingsOf_cons. intros Hcs c.
  assert (crossings = detect 1 s rest) as -> by congruence. clear Hcs.
  rewrite detect_elem. split.
  - intros (k & a & b & -> & Ha & Hb & Hsc). exists k, a, b.
    split_and!; [lia|done..].
  - intros (k & a & b & -> & Ha & Hb & Hsc). exists k, a, b.
    split_and!; [lia|done..].
Qed.

Lemma crossing_iff_sign_change_witness :
  3 ∈ [1; 3] ↔
  ∃ k a b, 3 = Z.of_nat (S k)
           ∧ squareWave true [1; 2; 1]%nat !! k = Some a
           ∧ squareWave true [1; 2; 1]%nat !! S k = Some b
           ∧ signChange a b = true.
Proof.
  apply (crossing_iff_sign_change (squareWave true [1; 2; 1]%nat)). reflexivity.
Defined.

Lemma signChange_sameSign a a' b b' :
  sameSign a a' → sameSign b b' → signChange a b = signChange a' b'.
Proof. intros [H1 H2] [H3 H4]. unfold signChange. by rewrite H1, H2, H3, H4. Qed.

Lemma detect_sameSign s1 : ∀ s2 i p1 p2,
  sameSign p1 p2 → Forall2 sameSign s1 s2 → detect i p1 s1 = detect i p2 s2.
Proof.
  induction s1 as [|a s1 IH]; intros s2 i p1 p2 Hp Hall.
  - by apply Forall2_nil_inv_l in Hall as ->.
  - apply Forall2_cons_inv_l in Hall as (b & s2' & Hab & Hall & ->).
    rewrite !detect_signChange, (signChange_sameSign _ _ _ _ Hp Hab).
    by rewrite (IH s2' (i + 1) a b Hab Hall).
Qed.

(** X3: the decoder reads the samples through their signs alone: two streams
    that agree, sample by sample, on being negative and on being
    non-negative have the same crossings and decode to the same result,
    whatever their amplitudes. *)
Theorem processSamples_sign_only (s1 s2 : list F64.t) (sampleRate : Z) :
  Forall2 sameSign s1 s2 →
  crossingsOf s1 = crossingsOf s2
  ∧ processSamples s1 sampleRate = processSamples s2 sampleRate.
Proof.
  intros Hall.
  assert (crossingsOf s1 = crossingsOf s2) as Hcs.
  { destruct Hall as [|a b s1 s2 Hab Hall]; [done|].
    rewrite !crossingsOf_cons. f_equal. by apply detect_sameSign. }
  split; [done|]. unfold processSamples. by rewrite Hcs.
Qed.

Lemma processSamples_sign_only_witness :
  let loud := map F64.of_int [32767; 5; -1; -32768; 0] in
  let soft := map F64.of_int [1; 1; -7; -2; 3] in
  crossingsOf loud = crossingsOf soft
  ∧ processSamples loud 44100 = processSamples soft 44100.
Proof.
  intros loud soft. apply (processSamples_sign_only loud soft 44100).
  repeat constructor.
Defined.

(** ** Square waves *)

Lemma detect_run v n : ∀ i rest,
  detect i v (repeat v n ++ rest) = detect (i + Z.of_nat n) v rest.
Proof.
  induction n as [|n IH]; intros i rest.
  - cbn [repeat app]. f_equal. lia.
  - cbn [repeat app]. rewrite detect_signChange, signChange_same, IH. f_equal. lia.
Qed.

Lemma signChange_level p : signChange (level p) (level (negb p)) = true.
Proof. by destruct p. Qed.

Lemma detect_squareWave runs : ∀ p i last,
  Forall (fun n => 1 ≤ n)%nat runs → (1 ≤ last)%nat →
  detect i (level p) (squareWave (negb p) (runs ++ [last]))
  = crossingsFrom i (map Z.of_nat runs).
Proof.
  induction runs as [|r runs IH]; intros p i last Hruns Hlast.
  - cbn [app squareWave map crossingsFrom]. destruct last as [|m]; [lia|].
    cbn [repeat app]. rewrite detect_signChange, signChange_level, detect_run.
    reflexivity.
  - apply Forall_cons in Hruns as [Hr Hruns]. destruct r as [|m]; [lia|].
    cbn [app squareWave map crossingsFrom repeat].
    rewrite detect_signChange, signChange_level, detect_run.
    rewrite IH by done. do 2 f_equal. lia.
Qed.

Lemma crossingsOf_squareWave p lead runs last :
  (1 ≤ lead)%nat → Forall (fun n => 1 ≤ n)%nat runs → (1 ≤ last)%nat →
  crossingsOf (squareWave p (lead :: runs ++ [last]))
  = Ret (crossingsFrom (Z.of_nat lead) (map Z.of_nat runs)).
Proof.
  intros Hlead Hruns Hlast. destruct lead as [|m]; [lia|].
  cbn [squareWave repeat app]. rewrite crossingsOf_cons, detect_run.
  rewrite detect_squareWave by done. do 2 f_equal. lia.
Qed.

(** X4: on a square wave whose first run has [lead] samples, whose last run
    is not empty and whose runs in between have the lengths [runs] (all at
    least 1), the crossings are [lead], [lead + runs[0]], ...: consecutive
    crossings are exactly one run apart. *)
Theorem squareWave_crossings (p : bool) (lead last : nat) (runs : list nat) :
  (1 ≤ lead)%nat → Forall (fun n => 1 ≤ n)%nat runs → (1 ≤ last)%nat →
  crossingsOf (squareWave p (lead :: runs ++ [last]))
  = Ret (crossingsFrom (Z.of_nat lead) (map Z.of_nat runs)).
Proof. apply crossingsOf_squareWave. Qed.

Lemma squareWave_crossings_witness :
  crossingsOf (squareWave true (3 :: [5; 5; 2] ++ [4])%nat)
  = Ret [3; 8; 13; 15].
Proof.
  apply (squareWave_crossings true 3 4 [5; 5; 2]%nat); [lia| |lia].
  repeat constructor.
Defined.

(** ** The demodulator sees bands only *)

Lemma readBit_sameBand d1 d1' d2 d2' l :
  sameBand d1 d1' → sameBand d2 d2' → readBit d1 d2 l = readBit d1' d2' l.
Proof.
  intros (A1 & A2 & A3 & A4 & A5) (B1 & B2 & B3 & B4 & B5). unfold readBit.
  by rewrite A1, A2, A4, A5, B1, B2, B4, B5.
Qed.

Lemma runIntervals_sameBand n : ∀ ds ds' l,
  (length ds ≤ n)%nat → Forall2 sameBand ds ds' →
  runIntervals ds l = runIntervals ds' l.
Proof.
  induction n as [|n IH]; intros ds ds' l Hlen Hall.
  - destruct Hall; [done|cbn in Hlen; lia].
  - destruct Hall as [|d d' rest rest' Hd Hrest]; [done|].
    cbn [length] in Hlen. cbn [runIntervals].
    pose proof Hd as (A1 & A2 & A3 & A4 & A5).
    unfold flags. rewrite A1, A2, A3.
    assert (∀ l', runIntervals rest l' = runIntervals rest' l') as Hrec
      by (intros; apply IH; [lia|done]).
    destruct (state l).
    + rewrite !Hrec.
      destruct Hrest as [|e e' rest2 rest2' He Hrest2]; [done|].
      destruct He as (B1 & _). rewrite B1.
      cbn [length] in Hlen. by rewrite (IH rest2 rest2') by (lia || done).
    + apply Hrec.
    + destruct Hrest as [|e e' rest2 rest2' He Hrest2]; [done|].
      cbn [length] in Hlen.
      rewrite (readBit_sameBand d d' e e') by done.
      apply IH; [lia|done].
Qed.

(** X5: the demodulator reads each interval through its position relative
    to 350us and 600us alone: two crossing sequences (at any two rates)
    whose intervals give the same answers to the threshold comparisons are
    demodulated to the same final state and bytes. *)
Theorem demodulate_band_only (cs1 cs2 : list Z) (rate1 rate2 : Z) :
  Forall2 sameBand (intervals rate1 cs1) (intervals rate2 cs2) →
  demodulate cs1 rate1 = demodulate cs2 rate2.
Proof.
  intros Hall. rewrite !demodulate_runIntervals. f_equal.
  by apply (runIntervals_sameBand (length (intervals rate1 cs1))).
Qed.

Lemma demodulate_band_only_witness :
  demodulate (crossingsFrom 0 (stepsOf 10 20 40 leaderSyncB2)) 44100
  = demodulate (crossingsFrom 7 (stepsOf 5 9 13 leaderSyncB2)) 22050.
Proof.
  apply demodulate_band_only. vm_compute. repeat constructor.
Defined.

(** ** Upsampling *)

Lemma ltb_Qeq q q' t : (q == q')%Q → F64.ltb (F64.Fin q) t = F64.ltb (F64.Fin q') t.
Proof.
  intros E. destruct t; cbn; try done. unfold F64.Qltb. by rewrite E.
Qed.

Lemma leb_Qeq q q' t : (q == q')%Q → F64.leb t (F64.Fin q) = F64.leb t (F64.Fin q').
Proof. intros E. destruct t; cbn; try done. by rewrite E. Qed.

Lemma gtb_Qeq q q' t : (q == q')%Q → F64.gtb (F64.Fin q) t = F64.gtb (F64.Fin q') t.
Proof.
  intros E. unfold F64.gtb. destruct t; cbn; try done. unfold F64.Qltb. by rewrite E.
Qed.

Lemma sameBand_Qeq q q' : (q == q')%Q → sameBand (F64.Fin q) (F64.Fin q').
Proof.
  intros E. unfold sameBand, F64.geb.
  rewrite !(ltb_Qeq q q'), !(gtb_Qeq q q'), (leb_Qeq q q') by done. done.
Qed.

Lemma sameBand_refl d : sameBand d d.
Proof. by unfold sameBand. Qed.

(** Scaling the crossing indices and the rate by the same factor leaves
    every duration in its band. *)
Lemma durationOf_scale k rate a b :
  0 < k → 0 ≤ rate →
  sameBand (durationOf (k * rate) (k * a) (k * b)) (durationOf rate a b).
Proof.
  intros Hk Hrate. destruct (Z.eq_dec rate 0) as [->|Hne].
  - replace (k * 0) with 0 by lia. unfold durationOf, F64.of_int, F64.div, F64.sign.
    cbn [Qnum inject_Z Z.compare].
    replace (k * b - k * a ?= 0) with (b - a ?= 0); [apply sameBand_refl|].
    destruct (Z.compare_spec (b - a) 0), (Z.compare_spec (k * b - k * a) 0);
      try done; nia.
  - rewrite !durationOf_pos by nia. apply sameBand_Qeq.
    replace (k * b - k * a) with (k * (b - a)) by lia.
    rewrite !inject_Z_mult. field. split.
    + change 0%Q with (inject_Z 0). rewrite inject_Z_injective. lia.
    + change 0%Q with (inject_Z 0). rewrite inject_Z_injective. lia.
Qed.

Lemma intervals_scale k rate cs :
  0 < k → 0 ≤ rate →
  Forall2 sameBand (intervals (k * rate) (map (Z.mul k) cs)) (intervals rate cs).
Proof.
  intros Hk Hrate. induction cs as [|a [|b cs] IH]; [constructor..|].
  cbn [map intervals] in *. constructor; [by apply durationOf_scale|done].
Qed.

Lemma detect_upsample m samples : ∀ i prev,
  detect (Z.of_nat (S m) * i) prev (upsample (S m) samples)
  = map (Z.mul (Z.of_nat (S m))) (detect i prev samples).
Proof.
  induction samples as [|s rest IH]; intros i prev; [done|].
  cbn [upsample flat_map repeat app]. rewrite !detect_signChange, detect_run.
  replace (Z.of_nat (S m) * i + 1 + Z.of_nat m) with (Z.of_nat (S m) * (i + 1))
    by lia.
  fold (upsample (S m) rest). rewrite IH.
  by destruct (signChange prev s).
Qed.

Lemma crossingsOf_upsample m s rest :
  crossingsOf (upsample (S m) (s :: rest))
  = Ret (map (Z.mul (Z.of_nat (S m))) (detect 1 s rest)).
Proof.
  cbn [upsample flat_map repeat app]. rewrite crossingsOf_cons, detect_run.
  fold (upsample (S m) rest). rewrite <- detect_upsample. do 2 f_equal. lia.
Qed.

(** X6: sample-and-hold upsampling does not change the decoding: repeating
    every sample [k] times and multiplying the sample rate by [k] yields the
    same bytes (and the same panic on the empty stream). *)
Theorem processSamples_upsample (k : nat) (samples : list F64.t) (sampleRate : Z) :
  (1 ≤ k)%nat → 0 ≤ sampleRate →
  processSamples (upsample k samples) (Z.of_nat k * sampleRate)
  = processSamples samples sampleRate.
Proof.
  intros Hk Hrate. destruct k as [|m]; [lia|].
  destruct samples as [|s rest]; [done|].
  rewrite !processSamples_single_pass. unfold processSamplesSinglePass.
  rewrite crossingsOf_upsample, crossingsOf_cons. cbn [obind].
  rewrite !demodulate_runIntervals. cbn [obind]. do 2 f_equal.
  eapply runIntervals_sameBand; [done|]. apply intervals_scale; lia.
Qed.

Lemma processSamples_upsample_witness :
  let tape := squareWave true [3; 5; 10; 5; 4]%nat in
  processSamples (upsample 2 tape) (Z.of_nat 2 * 22050)
  = processSamples tape 22050.
Proof.
  intros tape. apply (processSamples_upsample 2 tape 22050); lia.
Defined.

(** ** Decoding what was recorded *)

Lemma msbValue_bitsOfByte b : 0 ≤ b < 256 → msbValue (bitsOfByte b) = b.
Proof.
  intros Hb.
  assert (forallb (fun n => msbValue (bitsOfByte (Z.of_nat n)) =? Z.of_nat n)
                  (seq 0 256) = true) as Hall by (by vm_compute).
  rewrite forallb_forall in Hall.
  specialize (Hall (Z.to_nat b)). rewrite Z2Nat.id in Hall by lia.
  apply Z.eqb_eq, Hall, in_seq. lia.
Qed.

Lemma ingest_bytes bytes : ∀ l,
  Forall (fun b => 0 ≤ b < 256) bytes →
  bitCount l = 0 → currentByte l = 0 →
  fold_left (fun l b => emit (pushBit b l)) (bitsOfBytes bytes) l
  = with_decodedBytes (decodedBytes l ++ bytes) l.
Proof.
  induction bytes as [|b bytes IH]; intros l Hall Hbc Hcb.
  - cbn. rewrite app_nil_r. by destruct l.
  - apply Forall_cons in Hall as [Hb Hall].
    unfold bitsOfBytes. cbn [flat_map]. rewrite fold_left_app.
    rewrite (ingest8 (bitsOfByte b)) by (done || reflexivity).
    rewrite msbValue_bitsOfByte by done.
    fold (bitsOfBytes bytes). rewrite IH by done.
    destruct l; unfold with_decodedBytes; cbn. by rewrite <- app_assoc.
Qed.

(** Leader, sync and the pairs of whole bytes, on the interval recursion. *)
Lemma run_tape hdr s1 s2 pairs bytes :
  Forall headerTone hdr → (50 < length hdr)%nat →
  tone s1 = Short → tone s2 = Short →
  Forall (fun b => 0 ≤ b < 256) bytes →
  Forall2 (fun p b => pairBit (fst p) (snd p) = Some b) pairs (bitsOfBytes bytes) →
  runIntervals (hdr ++ s1 :: s2 :: flattenPairs pairs) locals0
  = mkLocals StateReadData bytes 0 0 (Z.of_nat (length hdr)).
Proof.
  intros Hhdr Hlen H1 H2 Hbytes Hpairs.
  rewrite run_header by done.
  rewrite run_sync by (try done; cbn; lia).
  rewrite <- (app_nil_r (flattenPairs pairs)).
  rewrite (run_bits _ (bitsOfBytes bytes)) by done.
  by rewrite ingest_bytes.
Qed.

(** X7: decoding undoes the encoding.  When the intervals of a crossing
    sequence are more than 50 header tones (Long, or Medium strictly above
    350us), two Short intervals, and then for every bit of a list of bytes,
    high bit first, a pair that reads as that bit, the demodulator returns
    exactly these bytes and ends in [StateReadData] with an empty
    accumulator. *)
Theorem demodulate_tape (crossings : list Z) (sampleRate : Z)
    (hdr : list F64.t) (s1 s2 : F64.t) (pairs : list (F64.t * F64.t))
    (bytes : list Z) :
  intervals sampleRate crossings = hdr ++ s1 :: s2 :: flattenPairs pairs →
  Forall headerTone hdr → (50 < length hdr)%nat →
  tone s1 = Short → tone s2 = Short →
  Forall (fun b => 0 ≤ b < 256) bytes →
  Forall2 (fun p b => pairBit (fst p) (snd p) = Some b) pairs (bitsOfBytes bytes) →
  demodulate crossings sampleRate
  = Ret (mkLocals StateReadData bytes 0 0 (Z.of_nat (length hdr))).
Proof.
  intros Hint Hhdr Hlen H1 H2 Hbytes Hpairs.
  rewrite demodulate_runIntervals, Hint. f_equal. by apply run_tape.
Qed.

Lemma demodulate_tape_witness :
  demodulate crossingsB2 44100
  = Ret (mkLocals StateReadData [178] 0 0 (Z.of_nat 60)).
Proof.
  set (m := durationOf 44100 0 20). set (s := durationOf 44100 0 10).
  apply (demodulate_tape crossingsB2 44100 (repeat m 60) s s
           [(m, m); (s, s); (m, m); (m, m); (s, s); (s, s); (m, m); (s, s)]
           [178]).
  - by vm_compute.
  - apply Forall_forall. intros d Hd.
    apply list_elem_of_In, repeat_spec in Hd as ->. right. by vm_compute.
  - rewrite repeat_length. lia.
  - by vm_compute.
  - by vm_compute.
  - constructor; [lia|constructor].
  - repeat constructor.
Defined.

(** ** From the recording to the bytes *)

Lemma intervals_crossingsFrom rate steps : ∀ c,
  intervals rate (crossingsFrom c steps) = map (durationOf rate 0) steps.
Proof.
  induction steps as [|d steps IH]; intros c; [done|].
  cbn [crossingsFrom map]. specialize (IH (c + d)).
  destruct steps as [|e steps]; cbn [crossingsFrom intervals map] in *;
    rewrite ?IH; f_equal; unfold durationOf; do 2 f_equal; lia.
Qed.

Lemma duration_Qlt rate n num :
  0 < rate →
  ((inject_Z n / inject_Z rate < num # 1000000)%Q ↔ n * 1000000 < num * rate)
  ∧ ((num # 1000000 < inject_Z n / inject_Z rate)%Q ↔ num * rate < n * 1000000).
Proof.
  intros Hr. destruct rate as [|p|p]; try lia.
  unfold Qlt, Qdiv, Qmult, Qinv, inject_Z. cbn [Qnum Qden]. split; lia.
Qed.

Lemma short_run_tone rate n :
  0 < rate → n * 1000000 < 350 * rate → tone (durationOf rate 0 n) = Short.
Proof.
  intros Hr Hn. apply tone_Short.
  rewrite durationOf_pos by done. replace (n - 0) with n by lia.
  apply (duration_Qlt rate n 350 Hr) in Hn.
  unfold ShortThreshold. cbn [F64.ltb]. unfold F64.Qltb.
  destruct (Qle_bool_reflect (350 # 1000000) (inject_Z n / inject_Z rate));
    [lra|done].
Qed.

Lemma medium_run_tone rate n :
  0 < rate → 350 * rate < n * 1000000 < 600 * rate →
  headerTone (durationOf rate 0 n)
  ∧ tone (durationOf rate 0 n) = Medium.
Proof.
  intros Hr [Hlo Hhi].
  apply (duration_Qlt rate n 350 Hr) in Hlo.
  apply (duration_Qlt rate n 600 Hr) in Hhi.
  assert (tone (durationOf rate 0 n) = Medium) as Hm.
  { apply tone_Medium. rewrite durationOf_pos by done.
    replace (n - 0) with n by lia.
    unfold ShortThreshold, LongThreshold. cbn [F64.ltb]. unfold F64.Qltb.
    destruct (Qle_bool_reflect (350 # 1000000) (inject_Z n / inject_Z rate));
      [|lra].
    destruct (Qle_bool_reflect (600 # 1000000) (inject_Z n / inject_Z rate));
      [lra|done]. }
  split; [|done]. right. split; [done|].
  rewrite durationOf_pos by done. replace (n - 0) with n by lia.
  unfold F64.gtb, ShortThreshold. cbn [F64.ltb]. unfold F64.Qltb.
  destruct (Qle_bool_reflect (inject_Z n / inject_Z rate) (350 # 1000000));
    [lra|done].
Qed.

Lemma map_runsOfBit {B} (f : nat → B) short medium bits :
  map f (flat_map (runsOfBit short medium) bits)
  = concat (map (fun b : bool => if b then [f medium; f medium]
                                 else [f short; f short]) bits).
Proof.
  induction bits as [|[] bits IH]; [done|..]; cbn [flat_map map concat runsOfBit app];
    by rewrite IH.
Qed.

(** The recording of a tape decodes to its bytes. *)
Lemma tape_decodes lead last short medium leader bytes rate :
  (1 ≤ lead)%nat → (1 ≤ last)%nat → (1 ≤ short)%nat → (50 < leader)%nat →
  0 < rate →
  Z.of_nat short * 1000000 < 350 * rate →
  350 * rate < Z.of_nat medium * 1000000 < 600 * rate →
  Forall (fun b => 0 ≤ b < 256) bytes →
  crossingsOf (tapeSamples lead last short medium leader bytes)
  = Ret (crossingsFrom (Z.of_nat lead)
           (map Z.of_nat (tapeRuns short medium leader bytes)))
  ∧ processSamples (tapeSamples lead last short medium leader bytes) rate
    = Ret bytes.
Proof.
  intros Hlead Hlast Hshort Hleader Hrate Hs Hm Hbytes.
  assert (1 ≤ medium)%nat as Hmedium by nia.
  assert (crossingsOf (tapeSamples lead last short medium leader bytes)
          = Ret (crossingsFrom (Z.of_nat lead)
                   (map Z.of_nat (tapeRuns short medium leader bytes)))) as Hcs.
  { apply crossingsOf_squareWave; [done| |done].
    unfold tapeRuns. rewrite !Forall_app. split_and!.
    - apply Forall_forall. by intros n ->%list_elem_of_In%repeat_spec.
    - by repeat constructor.
    - apply Forall_flat_map, Forall_forall. intros [] _; by repeat constructor. }
  split; [done|].
  rewrite processSamples_single_pass. unfold processSamplesSinglePass.
  rewrite Hcs. cbn [obind]. rewrite demodulate_runIntervals. cbn [obind].
  rewrite intervals_crossingsFrom, map_map. unfold tapeRuns.
  rewrite !map_app, map_repeat, map_runsOfBit. cbn [map app].
  set (M := durationOf rate 0 (Z.of_nat medium)).
  set (S := durationOf rate 0 (Z.of_nat short)).
  destruct (medium_run_tone rate (Z.of_nat medium) Hrate Hm) as [HhM HtM].
  pose proof (short_run_tone rate (Z.of_nat short) Hrate Hs) as HtS.
  fold M in HhM, HtM. fold S in HtS.
  assert (concat (map (fun b : bool => if b then [M; M] else [S; S])
                      (bitsOfBytes bytes))
          = flattenPairs (map (fun b : bool => if b then (M, M) else (S, S))
                              (bitsOfBytes bytes))) as ->.
  { unfold flattenPairs. rewrite map_map. f_equal. apply map_ext. by intros []. }
  rewrite (run_tape _ S S _ bytes); try done.
  - apply Forall_forall. by intros d ->%list_elem_of_In%repeat_spec.
  - by rewrite repeat_length.
  - generalize (bitsOfBytes bytes). intros bits.
    induction bits as [|[] bits IH]; cbn [map]; constructor; try done; cbn [fst snd].
    + by apply pairBit_Medium.
    + by apply pairBit_Short.
Qed.

(** X8: recording and decoding are inverse.  A square wave made of a
    lead-in run, more than 50 leader half-cycles of [medium] samples, two
    sync half-cycles of [short] samples, two half-cycles per bit of the
    bytes (high bit first, [medium] for 1, [short] for 0) and a last run
    is decoded by [processSamples] to exactly these bytes, whenever
    [short] samples last less than 350us and [medium] samples strictly
    between 350us and 600us at the sample rate. *)
Theorem record_then_decode
    (lead last short medium leader : nat) (bytes : list Z) (sampleRate : Z) :
  (1 ≤ lead)%nat → (1 ≤ last)%nat → (1 ≤ short)%nat → (50 < leader)%nat →
  0 < sampleRate →
  Z.of_nat short * 1000000 < 350 * sampleRate →
  350 * sampleRate < Z.of_nat medium * 1000000 < 600 * sampleRate →
  Forall (fun b => 0 ≤ b < 256) bytes →
  processSamples (tapeSamples lead last short medium leader bytes) sampleRate
  = Ret bytes.
Proof. intros. by apply tape_decodes. Qed.

Lemma record_then_decode_witness :
  processSamples (tapeSamples 3 4 10 20 60 [178; 0; 255; 65]) 44100
  = Ret [178; 0; 255; 65].
Proof.
  apply (record_then_decode 3 4 10 20 60 [178; 0; 255; 65] 44100);
    try lia.
  repeat (constructor; [lia|]). constructor.
Defined.

(** ** Invariants of the second loop *)

Section RunInvariant.

(** A property of the locals after [n] intervals that every transition of
    the second loop preserves. *)
Variable P : nat → locals → Prop.

Hypothesis P_mono : ∀ n l, P n l → P (S n) l.
Hypothesis P_count : ∀ n l,
  state l = StateFindHeader → P n l →
  P (S n) (with_headerCount (headerCount l + 1) l).
Hypothesis P_reset : ∀ n l,
  state l = StateFindHeader → P n l → P (S n) (with_headerCount 0 l).
Hypothesis P_sync : ∀ n l,
  state l = StateFindHeader → 50 < headerCount l → P n l →
  P (S (S n)) (with_bitCount 0 (with_currentByte 0 (with_state StateReadData l))).
Hypothesis P_nosync : ∀ n l,
  state l = StateFindHeader → P n l →
  P (S n) (with_headerCount 0 (with_state StateFindHeader l)).
Hypothesis P_bit : ∀ n d1 d2 l,
  state l = StateReadData → P n l → P (S (S n)) (readBit d1 d2 l).

Lemma runIntervals_invariant_bounded m : ∀ ds n l,
  (length ds ≤ m)%nat → P n l → P (n + length ds) (runIntervals ds l).
Proof using All.
  induction m as [|m IH]; intros ds n l Hlen HP.
  - destruct ds; [|cbn in Hlen; lia]. cbn [length]. by rewrite Nat.add_0_r.
  - destruct ds as [|d rest]; [cbn [length]; by rewrite Nat.add_0_r|].
    cbn [length] in Hlen. cbn [runIntervals length].
    replace (n + S (length rest))%nat with (S n + length rest)%nat by lia.
    destruct (state l) eqn:Hst.
    + destruct (_ || _); [apply IH; [lia|by apply P_count]|].
      destruct (_ && _) eqn:Hsync; [|apply IH; [lia|by apply P_reset]].
      apply andb_prop in Hsync as [Hhc%Z.ltb_lt _].
      destruct rest as [|e rest2];
        [cbn [length]; rewrite Nat.add_0_r; by apply P_mono|].
      destruct (F64.ltb e ShortThreshold).
      * cbn [length] in *.
        replace (S n + S (length rest2))%nat with (S (S n) + length rest2)%nat
          by lia.
        apply IH; [lia|by apply P_sync].
      * apply IH; [cbn [length] in *; lia|by apply P_nosync].
    + apply IH; [lia|by apply P_mono].
    + destruct rest as [|e rest2];
        [cbn [length]; rewrite Nat.add_0_r; by apply P_mono|]. cbn [length] in *.
      replace (S n + S (length rest2))%nat with (S (S n) + length rest2)%nat
        by lia.
      apply IH; [lia|by apply P_bit].
Qed.

Lemma runIntervals_invariant ds n l :
  P n l → P (n + length ds) (runIntervals ds l).
Proof using All. by apply (runIntervals_invariant_bounded (length ds)). Qed.

End RunInvariant.

(** The three things a pair can do: push a bit, end the data, or nothing. *)
Lemma readBit_cases d1 d2 l :
  (∃ b, readBit d1 d2 l = emit (pushBit b l))
  ∨ readBit d1 d2 l = emit (with_headerCount 0 (with_state StateFindHeader l))
  ∨ readBit d1 d2 l = emit l.
Proof.
  unfold readBit. destruct (_ && _); [left; eauto|].
  destruct (_ && _); [left; eauto|]. destruct (_ || _); auto.
Qed.

(** Every field after a pair, in the four cases of [readBit]: the pair is
    ignored, it ends the data, it adds one of the first seven bits, or it
    adds the eighth bit and the byte is appended. *)
Lemma readBit_fields d1 d2 l :
  0 ≤ bitCount l < 8 →
  readBit d1 d2 l = l
  ∨ readBit d1 d2 l = with_headerCount 0 (with_state StateFindHeader l)
  ∨ (∃ b, bitCount l < 7 ∧ readBit d1 d2 l = pushBit b l)
  ∨ (∃ b, bitCount l = 7
          ∧ readBit d1 d2 l
            = with_bitCount 0
                (with_currentByte 0
                   (with_decodedBytes
                      (decodedBytes l ++ [currentByte (pushBit b l)]) l))).
Proof.
  intros Hbc.
  assert (∀ b, (bitCount l < 7 ∧ emit (pushBit b l) = pushBit b l)
               ∨ (bitCount l = 7
                  ∧ emit (pushBit b l)
                    = with_bitCount 0
                        (with_currentByte 0
                           (with_decodedBytes
                              (decodedBytes l ++ [currentByte (pushBit b l)]) l))))
    as Hpush.
  { intros b. unfold emit.
    destruct (pushBit_fields b l) as (Hc & Hd & _ & _). rewrite Hc, Hd.
    destruct (Z.eqb_spec (bitCount l + 1) 8); [right|left; split; [lia|done]].
    split; [lia|]. by destruct b, l. }
  destruct (readBit_cases d1 d2 l) as [[b ->]|[->| ->]].
  - destruct (Hpush b) as [[? ?]|[? ?]]; [right; right; left|right; right; right];
      eauto.
  - right. left. unfold emit. cbn.
    destruct (Z.eqb_spec (bitCount l) 8); [lia|done].
  - left. unfold emit. destruct (Z.eqb_spec (bitCount l) 8); [lia|done].
Qed.

Lemma sizeInv_run ds n l : sizeInv n l → sizeInv (n + length ds) (runIntervals ds l).
Proof.
  apply runIntervals_invariant; clear; unfold sizeInv.
  - intros n l [Hbc H]. split; [done|]. destruct (state l); [|done|lia].
    destruct (_ =? 0); lia.
  - intros n l Hst [Hbc H]. rewrite Hst in H. cbn. rewrite Hst.
    split; [done|]. destruct (_ =? 0); lia.
  - intros n l Hst [Hbc H]. rewrite Hst in H. cbn. rewrite Hst.
    split; [done|]. destruct (_ =? 0); lia.
  - intros n l Hst Hhc [Hbc H]. rewrite Hst in H. cbn.
    split; [lia|]. destruct (_ =? 0); lia.
  - intros n l Hst [Hbc H]. rewrite Hst in H. cbn.
    split; [done|]. destruct (_ =? 0); lia.
  - intros n d1 d2 l Hst [Hbc H]. rewrite Hst in H.
    destruct (readBit_fields d1 d2 l Hbc) as [->|[->|[(b & H7 & ->)|(b & H7 & ->)]]].
    + rewrite Hst. split; [done|lia].
    + cbn. split; [done|]. destruct (_ =? 0); lia.
    + destruct (pushBit_fields b l) as (Hc & Hd & Hs & _).
      rewrite Hc, Hd, Hs, Hst. split; lia.
    + cbn. rewrite Hst, length_app. cbn [length]. split; lia.
Qed.

Lemma sizeInv_start : sizeInv 0 locals0.
Proof.
  unfold sizeInv, locals0. cbn [decodedBytes state bitCount headerCount length].
  change (Z.of_nat 0) with 0. cbn [Z.eqb]. lia.
Qed.

Lemma size_bound_run ds :
  decodedBytes (runIntervals ds locals0) ≠ [] →
  (16 * length (decodedBytes (runIntervals ds locals0)) + 53 ≤ length ds)%nat.
Proof.
  intros Hne. pose proof (sizeInv_run ds 0 locals0 sizeInv_start) as [Hbc Hinv].
  cbn zeta in Hinv.
  assert (length (decodedBytes (runIntervals ds locals0)) ≠ 0)%nat
    by (by destruct (decodedBytes _)).
  destruct (state _); [|done|lia].
  destruct (Z.eqb_spec (Z.of_nat (length (decodedBytes (runIntervals ds locals0)))) 0);
    lia.
Qed.

(** A strictly increasing list of integers inside [lo, hi) has at most
    [hi - lo] entries. *)
Lemma sorted_count cs : ∀ lo hi,
  StronglySorted Z.lt cs → Forall (fun c => lo ≤ c < hi) cs →
  Z.of_nat (length cs) ≤ Z.max 0 (hi - lo).
Proof.
  induction cs as [|c cs IH]; intros lo hi Hs Hb; [cbn; lia|].
  apply StronglySorted_inv in Hs as [Hs Hc].
  apply Forall_cons in Hb as [Hcb Hb].
  assert (Forall (fun c' => c + 1 ≤ c' < hi) cs) as Hb'.
  { apply Forall_forall. intros x Hx.
    pose proof (proj1 (Forall_forall _ _) Hb x Hx).
    pose proof (proj1 (Forall_forall _ _) Hc x Hx). cbn beta in *. lia. }
  specialize (IH (c + 1) hi Hs Hb'). cbn [length]. lia.
Qed.

(** X9: a byte costs sixteen intervals and the data cannot start before
    more than 50 header intervals and the sync pair: when the demodulator
    returns [k >= 1] bytes, the crossing sequence has at least [16 k + 54]
    crossings and the sample stream at least [16 k + 55] samples.  Fewer
    than 70 crossings never give a byte. *)
Theorem output_size_bound (samples : list F64.t) (sampleRate : Z) (bytes : list Z) :
  processSamples samples sampleRate = Ret bytes →
  bytes ≠ [] →
  ∃ crossings l,
    crossingsOf samples = Ret crossings
    ∧ demodulate crossings sampleRate = Ret l ∧ decodedBytes l = bytes
    ∧ (16 * length bytes + 54 ≤ length crossings)%nat
    ∧ (16 * length bytes + 55 ≤ length samples)%nat.
Proof.
  rewrite processSamples_single_pass. unfold processSamplesSinglePass.
  destruct samples as [|s rest]; [done|]. rewrite crossingsOf_cons. cbn [obind].
  rewrite demodulate_runIntervals. cbn [obind]. intros Hrun Hne.
  assert (decodedBytes (runIntervals (intervals sampleRate (detect 1 s rest)) locals0)
          = bytes) as Hout by congruence. clear Hrun.
  assert (16 * length bytes + 54 ≤ length (detect 1 s rest))%nat as Hc.
  { pose proof (size_bound_run (intervals sampleRate (detect 1 s rest))) as Hb.
    rewrite Hout, intervals_length in Hb. specialize (Hb Hne). lia. }
  exists (detect 1 s rest), (runIntervals (intervals sampleRate (detect 1 s rest)) locals0).
  split_and!; [done|apply demodulate_runIntervals|done|done|].
  pose proof (sorted_count _ _ _ (detect_sorted rest 1 s) (detect_bounds rest 1 s)).
  cbn [length]. lia.
Qed.

Lemma output_size_bound_witness :
  ∃ crossings l,
    crossingsOf (tapeSamples 1 1 10 20 51 [178]) = Ret crossings
    ∧ demodulate crossings 44100 = Ret l ∧ decodedBytes l = [178]
    ∧ (16 * length [178%Z] + 54 ≤ length crossings)%nat
    ∧ (16 * length [178%Z] + 55 ≤ length (tapeSamples 1 1 10 20 51 [178%Z]))%nat.
Proof.
  apply (output_size_bound (tapeSamples 1 1 10 20 51 [178]) 44100 [178]);
    [by vm_compute|done].
Defined.

Lemma rangeInv_run ds l : rangeInv l → rangeInv (runIntervals ds l).
Proof.
  intros H.
  apply (runIntervals_invariant (fun _ => rangeInv)) with (n := 0%nat);
    try done; clear; unfold rangeInv.
  - intros _ l _ Hhc (Hbc & Hcb & Hout). cbn. split_and!; [lia..|done].
  - intros _ d1 d2 l Hst (Hbc & Hcb & Hout).
    assert (∀ b, 0 ≤ currentByte (pushBit b l) < 2 ^ (bitCount l + 1)) as Hpush.
    { intros b. destruct (pushBit_fields b l) as (_ & _ & _ & ->).
      assert (2 ^ (bitCount l + 1) = 2 * 2 ^ bitCount l) as ->
        by (rewrite Z.pow_add_r by lia; lia).
      assert (2 ^ bitCount l ≤ 2 ^ 7) by (apply Z.pow_le_mono_r; lia).
      rewrite Z.mod_small by lia. destruct b; lia. }
    destruct (readBit_fields d1 d2 l Hbc) as [->|[->|[(b & H7 & ->)|(b & H7 & ->)]]].
    + done.
    + done.
    + destruct (pushBit_fields b l) as (Hc & Hd & _ & _). rewrite Hc, Hd.
      split_and!; [lia|lia|apply Hpush|apply Hpush|done].
    + cbn. split_and!; [lia..|].
      apply Forall_app. split; [done|]. constructor; [|constructor].
      specialize (Hpush b). rewrite H7 in Hpush. change (2 ^ (7 + 1)) with 256 in Hpush.
      lia.
Qed.

(** X11: the accumulator never overflows: at the end of every run the
    accumulator holds a value below [2 ^ bitCount] with [bitCount] within
    0..7, so the 8-bit shift of the code never drops a bit that was read,
    and every byte of the output is within 0..255. *)
Theorem decoded_bytes_in_range (crossings : list Z) (sampleRate : Z) (l : locals) :
  demodulate crossings sampleRate = Ret l →
  0 ≤ bitCount l < 8
  ∧ 0 ≤ currentByte l < 2 ^ bitCount l
  ∧ Forall (fun b => 0 ≤ b < 256) (decodedBytes l).
Proof.
  rewrite demodulate_runIntervals. intros [= <-].
  apply rangeInv_run. unfold rangeInv. cbn. split_and!; [lia..|constructor].
Qed.

Lemma decoded_bytes_in_range_witness :
  0 ≤ 3 < 8 ∧ 0 ≤ 5 < 2 ^ 3 ∧ Forall (fun b => 0 ≤ b < 256) [178].
Proof.
  apply (decoded_bytes_in_range
           (crossingsFrom 0 (stepsOf 10 20 40
              (leaderSyncB2 ++ concat (map tonesOfBit [true; false; true]))))
           44100 (mkLocals StateReadData [178] 5 3 60)).
  by vm_compute.
Defined.

Lemma counterInv_run ds n l :
  counterInv n l → counterInv (n + length ds) (runIntervals ds l).
Proof.
  apply runIntervals_invariant; clear; unfold counterInv.
  - intros n l (? & ? & ?). split_and!; (done || lia).
  - intros n l Hst (? & ? & ?). cbn. rewrite Hst. split_and!; (done || lia).
  - intros n l Hst (? & ? & ?). cbn. rewrite Hst. split_and!; (done || lia).
  - intros n l Hst Hhc (? & ? & ?). cbn. split_and!; (done || lia).
  - intros n l Hst (? & ? & ?). cbn. split_and!; (done || lia).
  - intros n d1 d2 l Hst (Hbc & Hs & Hhc).
    destruct (readBit_fields d1 d2 l Hbc) as [->|[->|[(b & H7 & ->)|(b & H7 & ->)]]].
    + split_and!; (done || lia).
    + cbn. split_and!; (done || lia).
    + destruct (pushBit_fields b l) as (Hc & _ & Hst' & _).
      rewrite Hc, Hst'. destruct b; cbn; split_and!; (done || lia).
    + cbn. split_and!; (done || lia).
Qed.

(** X12: the second loop uses two states only: whatever the crossing
    sequence, the run ends in [StateFindHeader] or [StateReadData], never in
    [StateFindSync], and its header counter is between 0 and the number of
    intervals, so it cannot overflow. *)
Theorem second_loop_two_states (crossings : list Z) (sampleRate : Z) (l : locals) :
  demodulate crossings sampleRate = Ret l →
  (state l = StateFindHeader ∨ state l = StateReadData)
  ∧ 0 ≤ headerCount l ≤ Z.of_nat (length crossings - 1).
Proof.
  rewrite demodulate_runIntervals. intros [= <-].
  pose proof (counterInv_run (intervals sampleRate crossings) 0 locals0) as H.
  rewrite intervals_length in H.
  destruct H as (_ & Hst & Hhc); [unfold counterInv; cbn; split_and!; (done || lia)|].
  split; [by destruct (state _); auto|].
  replace (length crossings - 1)%nat with (0 + Init.Nat.pred (length crossings))%nat
    by lia. done.
Qed.

Lemma second_loop_two_states_witness :
  (state (mkLocals StateReadData [178] 0 0 60) = StateFindHeader
   ∨ state (mkLocals StateReadData [178] 0 0 60) = StateReadData)
  ∧ 0 ≤ headerCount (mkLocals StateReadData [178] 0 0 60)
    ≤ Z.of_nat (length crossingsB2 - 1).
Proof.
  apply (second_loop_two_states crossingsB2 44100). by vm_compute.
Defined.

(** ** Truncated recordings *)

Lemma run_output_grows ds l :
  0 ≤ bitCount l < 8 →
  decodedBytes l `prefix_of` decodedBytes (runIntervals ds l).
Proof.
  intros Hbc.
  apply (runIntervals_invariant
           (fun _ l' => 0 ≤ bitCount l' < 8
                        ∧ decodedBytes l `prefix_of` decodedBytes l'))
    with (n := 0%nat); try done; clear.
  - intros _ l' _ _ [? ?]. cbn. split; [lia|done].
  - intros _ d1 d2 l' _ [Hbc Hpre].
    destruct (readBit_fields d1 d2 l' Hbc) as [->|[->|[(b & H7 & ->)|(b & H7 & ->)]]];
      try done.
    + destruct (pushBit_fields b l') as (Hc & Hd & _). rewrite Hc, Hd. split; [lia|done].
    + cbn. split; [lia|]. etrans; [exact Hpre|]. by apply prefix_app_r.
Qed.

(** Running on more intervals continues the run on fewer, from a point at
    most one interval back (the one a look-ahead could not complete). *)
Lemma run_app_bounded m : ∀ ds extra l,
  (length ds ≤ m)%nat →
  ∃ back, runIntervals (ds ++ extra) l
          = runIntervals (back ++ extra) (runIntervals ds l).
Proof.
  induction m as [|m IH]; intros ds extra l Hlen.
  - destruct ds; [|cbn in Hlen; lia]. by exists [].
  - destruct ds as [|d rest]; [by exists []|]. cbn [length] in Hlen.
    cbn [app runIntervals].
    destruct (state l) eqn:Hst.
    + destruct (snd (flags d)
                || (F64.gtb d ShortThreshold && F64.ltb d LongThreshold)) eqn:Hhdr;
        [apply IH; lia|].
      destruct ((50 <? headerCount l) && fst (flags d)) eqn:Hsync; [|apply IH; lia].
      destruct rest as [|e rest2].
      * exists [d]. cbn [app runIntervals]. by rewrite Hst, Hhdr, Hsync.
      * cbn [app]. destruct (F64.ltb e ShortThreshold).
        -- apply IH. cbn [length] in Hlen. lia.
        -- apply (IH (e :: rest2)). lia.
    + apply IH. lia.
    + destruct rest as [|e rest2].
      * exists [d]. cbn [app runIntervals]. by rewrite Hst.
      * cbn [app]. apply IH. cbn [length] in Hlen. lia.
Qed.

Lemma run_prefix ds extra :
  decodedBytes (runIntervals ds locals0)
  `prefix_of` decodedBytes (runIntervals (ds ++ extra) locals0).
Proof.
  destruct (run_app_bounded (length ds) ds extra locals0) as [back ->]; [done|].
  apply run_output_grows.
  pose proof (rangeInv_run ds locals0) as (H & _); [|done].
  unfold rangeInv. cbn. split_and!; [lia..|constructor].
Qed.

Lemma intervals_app_prefix rate cs1 : ∀ cs2,
  ∃ extra, intervals rate (cs1 ++ cs2) = intervals rate cs1 ++ extra.
Proof.
  induction cs1 as [|a [|b cs1] IH]; intros cs2.
  - by eexists.
  - by eexists.
  - destruct (IH cs2) as [extra Hextra]. exists extra.
    cbn [app intervals] in *. by rewrite Hextra.
Qed.

Lemma detect_app s1 : ∀ s2 i prev,
  ∃ more, detect i prev (s1 ++ s2) = detect i prev s1 ++ more.
Proof.
  induction s1 as [|s s1 IH]; intros s2 i prev; [by eexists|].
  cbn [app]. rewrite !detect_signChange.
  destruct (IH s2 (i + 1) s) as [more ->]. exists more.
  by destruct (signChange prev s).
Qed.

(** X10: cutting a recording short never changes what was already decoded:
    the bytes decoded from the first [n >= 1] samples are a prefix of the
    bytes decoded from the whole stream. *)
Theorem truncation_gives_prefix (samples : list F64.t) (sampleRate : Z)
    (n : nat) (whole : list Z) :
  (1 ≤ n)%nat →
  processSamples samples sampleRate = Ret whole →
  ∃ part, processSamples (take n samples) sampleRate = Ret part
          ∧ part `prefix_of` whole.
Proof.
  intros Hn. rewrite !processSamples_single_pass. unfold processSamplesSinglePass.
  destruct samples as [|s rest]; [done|]. destruct n as [|n]; [lia|].
  cbn [take]. rewrite !crossingsOf_cons. cbn [obind].
  rewrite !demodulate_runIntervals. cbn [obind]. intros [= <-].
  eexists. split; [done|].
  destruct (detect_app (take n rest) (drop n rest) 1 s) as [more Hmore].
  rewrite take_drop in Hmore. rewrite Hmore.
  destruct (intervals_app_prefix sampleRate (detect 1 s (take n rest)) more)
    as [extra ->].
  apply run_prefix.
Qed.

Lemma truncation_gives_prefix_witness :
  ∃ part,
    processSamples (take 1400 (tapeSamples 3 4 10 20 60 [178; 65])) 44100 = Ret part
    ∧ part `prefix_of` [178; 65].
Proof.
  apply (truncation_gives_prefix (tapeSamples 3 4 10 20 60 [178; 65]) 44100 1400);
    [lia|by vm_compute].
Defined.

(** ** A sample rate of zero *)

Lemma intervals_rate0 cs :
  StronglySorted Z.lt cs → Forall headerTone (intervals 0 cs).
Proof.
  induction cs as [|a [|b cs] IH]; intros Hs; [constructor..|].
  apply StronglySorted_inv in Hs as [Hs Ha]. cbn [intervals].
  constructor; [|by apply IH].
  apply Forall_cons in Ha as [Hab _]. left.
  unfold durationOf, F64.of_int, F64.div, F64.sign. cbn [Qnum inject_Z Z.compare].
  by replace (b - a ?= 0) with Gt by (symmetry; apply Z.compare_gt_iff; lia).
Qed.

(** X13: a sample rate of 0 is harmless: the division by zero makes every
    interval infinitely long, every interval counts as header tone, and a
    non-empty stream decodes to no byte. *)
Theorem rate_zero_decodes_nothing (samples : list F64.t) :
  samples ≠ [] → processSamples samples 0 = Ret [].
Proof.
  intros Hne. destruct samples as [|s rest]; [done|].
  rewrite processSamples_single_pass. unfold processSamplesSinglePass.
  rewrite crossingsOf_cons. cbn [obind]. rewrite demodulate_runIntervals.
  cbn [obind]. rewrite <- (app_nil_r (intervals 0 _)).
  rewrite run_header; [done|done|]. apply intervals_rate0, detect_sorted.
Qed.

Lemma rate_zero_decodes_nothing_witness :
  processSamples (tapeSamples 3 4 10 20 60 [178]) 0 = Ret [].
Proof. by apply rate_zero_decodes_nothing. Defined.

(** ** End of data *)

Lemma partial_bits bits : ∀ l,
  0 ≤ bitCount l → bitCount l + Z.of_nat (length bits) < 8 →
  let l' := fold_left (fun l b => emit (pushBit b l)) bits l in
  decodedBytes l' = decodedBytes l ∧ state l' = state l
  ∧ headerCount l' = headerCount l
  ∧ bitCount l' = bitCount l + Z.of_nat (length bits).
Proof.
  induction bits as [|b bits IH]; intros l H0 Hlt; cbn [fold_left length] in *.
  - split_and!; (done || lia).
  - assert (emit (pushBit b l) = pushBit b l) as ->.
    { unfold emit. destruct (pushBit_fields b l) as (-> & _).
      destruct (Z.eqb_spec (bitCount l + 1) 8); [lia|done]. }
    destruct (pushBit_fields b l) as (Hc & Hd & Hs & _).
    destruct (IH (pushBit b l)) as (Hd' & Hs' & Hh' & Hc'); [lia..|].
    cbn zeta in *. rewrite Hd', Hs', Hh', Hc', Hc, Hd, Hs.
    split_and!; try done; [by destruct b|lia].
Qed.

Lemma run_pair d1 d2 rest l :
  state l = StateReadData →
  runIntervals (d1 :: d2 :: rest) l = runIntervals rest (readBit d1 d2 l).
Proof. intros Hst. cbn [runIntervals]. by rewrite Hst. Qed.

(** X14: an end-of-data marker discards the bits of an unfinished byte.
    After leader, sync, the pairs of the bytes [bytes1] and of fewer than
    eight further bits, a pair with a half-cycle strictly above 600us sends
    the machine back to the header search; a second leader (more than 50
    header tones), sync and the pairs of [bytes2] then decode to [bytes2]:
    the run returns [bytes1 ++ bytes2], and the unfinished bits appear
    nowhere. *)
Theorem end_of_data_discards_partial (crossings : list Z) (sampleRate : Z)
    (hdr hdr2 : list F64.t) (s1 s2 e1 e2 t1 t2 : F64.t)
    (pairs1 pairs2 : list (F64.t * F64.t)) (bytes1 bytes2 : list Z)
    (partial : list bool) :
  intervals sampleRate crossings
  = hdr ++ s1 :: s2 :: flattenPairs pairs1
    ++ e1 :: e2 :: hdr2 ++ t1 :: t2 :: flattenPairs pairs2 →
  Forall headerTone hdr → (50 < length hdr)%nat →
  tone s1 = Short → tone s2 = Short →
  Forall (fun b => 0 ≤ b < 256) bytes1 → (length partial < 8)%nat →
  Forall2 (fun p b => pairBit (fst p) (snd p) = Some b)
          pairs1 (bitsOfBytes bytes1 ++ partial) →
  F64.gtb e1 LongThreshold || F64.gtb e2 LongThreshold = true →
  Forall headerTone hdr2 → (50 < length hdr2)%nat →
  tone t1 = Short → tone t2 = Short →
  Forall (fun b => 0 ≤ b < 256) bytes2 →
  Forall2 (fun p b => pairBit (fst p) (snd p) = Some b)
          pairs2 (bitsOfBytes bytes2) →
  demodulate crossings sampleRate
  = Ret (mkLocals StateReadData (bytes1 ++ bytes2) 0 0 (Z.of_nat (length hdr2))).
Proof.
  intros Hint Hhdr Hlen Hs1 Hs2 Hb1 Hpart Hp1 Hlong Hhdr2 Hlen2 Ht1 Ht2 Hb2 Hp2.
  rewrite demodulate_runIntervals, Hint. f_equal.
  rewrite run_header by done. rewrite run_sync by (try done; cbn; lia).
  rewrite (run_bits _ (bitsOfBytes bytes1 ++ partial)) by done.
  rewrite fold_left_app, ingest_bytes by done.
  match goal with
  | |- context [fold_left ?f partial ?l] =>
      destruct (partial_bits partial l) as (Hd & Hst & Hhc & Hbc);
        [cbn; lia..|]; cbn zeta in *; set (l3 := fold_left f partial l) in *
  end.
  rewrite run_pair by (by rewrite Hst).
  rewrite readBit_above_600us by (try done; rewrite Hbc; cbn; lia).
  rewrite run_header by done. rewrite run_sync by (try done; cbn; lia).
  rewrite <- (app_nil_r (flattenPairs pairs2)).
  rewrite (run_bits _ (bitsOfBytes bytes2)) by done.
  rewrite ingest_bytes by done. cbn [runIntervals].
  unfold with_decodedBytes, with_bitCount, with_currentByte, with_state,
    with_headerCount. cbn. rewrite Hd. cbn. by rewrite Z.add_0_l.
Qed.

Lemma end_of_data_discards_partial_witness :
  demodulate
    (crossingsFrom 0
       (stepsOf 10 20 40
          (repeat Medium 60 ++ [Short; Short]
           ++ concat (map tonesOfBit (bitsOfByte 65 ++ [true; true; false]))
           ++ [Long; Long]
           ++ repeat Medium 51 ++ [Short; Short]
           ++ concat (map tonesOfBit (bitsOfByte 178)))))
    44100
  = Ret (mkLocals StateReadData ([65] ++ [178]) 0 0 (Z.of_nat 51)).
Proof.
  set (m := durationOf 44100 0 20). set (s := durationOf 44100 0 10).
  set (e := durationOf 44100 0 40).
  set (pairOf := fun b : bool => if b then (m, m) else (s, s)).
  apply (end_of_data_discards_partial _ 44100 (repeat m 60) (repeat m 51)
           s s e e s s
           (map pairOf (bitsOfByte 65 ++ [true; true; false]))
           (map pairOf (bitsOfByte 178))
           [65] [178] [true; true; false]).
  - by vm_compute.
  - apply Forall_forall. intros d Hd.
    apply list_elem_of_In, repeat_spec in Hd as ->. right. by vm_compute.
  - rewrite repeat_length. lia.
  - by vm_compute.
  - by vm_compute.
  - constructor; [lia|constructor].
  - cbn. lia.
  - repeat constructor.
  - by vm_compute.
  - apply Forall_forall. intros d Hd.
    apply list_elem_of_In, repeat_spec in Hd as ->. right. by vm_compute.
  - rewrite repeat_length. lia.
  - by vm_compute.
  - by vm_compute.
  - constructor; [lia|constructor].
  - repeat constructor.
Defined.

(** ** The search for the data chunk *)

Lemma bytes_eqb_eq a : ∀ b, bytes_eqb a b = true ↔ a = b.
Proof.
  induction a as [|x a IH]; intros [|y b]; cbn; try done.
  rewrite andb_true_iff, IH. split.
  - intros [H ->]. by apply Byte.byte_dec_bl in H as ->.
  - intros [= -> ->]. split; [by apply Byte.byte_dec_lb|done].
Qed.

Lemma readFull_exact n a b :
  length a = n → readFull n (a ++ b) = inr (a, b).
Proof.
  intros <-. unfold readFull. rewrite length_app.
  destruct (Nat.leb_spec (length a) (length a + length b)); [|lia].
  by rewrite take_app_length, drop_app_length.
Qed.

Lemma findDataChunk_data fuel size pcm :
  length size = 4%nat →
  findDataChunk (S fuel) (tagData ++ size ++ pcm) = Ret pcm.
Proof.
  intros Hsize. cbn [findDataChunk].
  rewrite (readFull_exact 4 tagData) by done.
  rewrite (readFull_exact 4 size) by done.
  by replace (bytes_eqb tagData tagData) with true
    by (symmetry; by apply bytes_eqb_eq).
Qed.

Lemma findDataChunk_skip fuel c rest :
  skippable c →
  findDataChunk (S fuel) (chunkBytes c ++ rest) = findDataChunk fuel rest.
Proof.
  intros (Htag & Hsize & Hne & Hbody). unfold chunkBytes.
  cbn [findDataChunk]. rewrite <- !app_assoc.
  rewrite (readFull_exact 4 (chunkTag c)) by done.
  rewrite (readFull_exact 4 (chunkSizeField c)) by done.
  destruct (bytes_eqb (chunkTag c) tagData) eqn:E;
    [by apply bytes_eqb_eq in E|].
  by rewrite <- Hbody, drop_app_length.
Qed.

Lemma findDataChunk_chunks chunks : ∀ fuel size pcm,
  Forall skippable chunks → length size = 4%nat →
  (length chunks < fuel)%nat →
  findDataChunk fuel (flat_map chunkBytes chunks ++ tagData ++ size ++ pcm)
  = Ret pcm.
Proof.
  induction chunks as [|c chunks IH]; intros fuel size pcm Hall Hsize Hfuel;
    (destruct fuel as [|fuel]; [lia|]).
  - by apply findDataChunk_data.
  - apply Forall_cons in Hall as [Hc Hall]. cbn [flat_map length] in *.
    rewrite <- app_assoc, findDataChunk_skip by done.
    apply IH; [done..|lia].
Qed.

Lemma chunks_length chunks :
  Forall skippable chunks →
  (8 * length chunks ≤ length (flat_map chunkBytes chunks))%nat.
Proof.
  induction 1 as [|c chunks (Htag & Hsize & _) _ IH]; [done|].
  cbn [flat_map length]. rewrite length_app. unfold chunkBytes at 1.
  rewrite !length_app. lia.
Qed.

(** X15: the search for the data chunk steps over any number of other
    chunks, each with a body of exactly its declared size, and then hands
    over everything that follows the 8-byte head of the data chunk: the
    size field of the data chunk is not looked at, so whatever follows the
    PCM data in the file is read as samples too. *)
Theorem data_chunk_found (chunks : list chunk) (size pcm : list byte) :
  Forall skippable chunks → length size = 4%nat →
  let f := flat_map chunkBytes chunks ++ tagData ++ size ++ pcm in
  findDataChunk (S (length f)) f = Ret pcm.
Proof.
  intros Hall Hsize f. apply findDataChunk_chunks; [done..|].
  pose proof (chunks_length chunks Hall). subst f. rewrite length_app. lia.
Qed.

Lemma data_chunk_found_witness :
  let list := mkChunk (String.list_byte_of_string "LIST"%string)
                      (map byteOf [3; 0; 0; 0]) (map byteOf [7; 8; 9]) in
  let f := flat_map chunkBytes [list] ++ tagData ++ map byteOf [0; 0; 0; 0]
           ++ map byteOf [128; 255; 0] in
  findDataChunk (S (length f)) f = Ret (map byteOf [128; 255; 0]).
Proof.
  intros list. apply (data_chunk_found [list]); [|done].
  constructor; [|constructor]. by vm_compute.
Defined.

(** ** The channel picked from a block *)

Lemma everyNth_skip {A} c : ∀ k (l : list A),
  everyNth c k l = everyNth c 0 (drop k l).
Proof.
  induction k as [|k IH]; intros l; [done|].
  destruct l as [|x l]; [done|]. cbn [everyNth drop]. apply IH.
Qed.

Lemma everyNth_app {A} c q : ∀ (a b : list A),
  (1 ≤ c)%nat → length a = (q * c)%nat →
  everyNth c 0 (a ++ b) = everyNth c 0 a ++ everyNth c 0 b.
Proof.
  induction q as [|q IH]; intros a b Hc Hlen.
  - by destruct a.
  - destruct a as [|x a]; [cbn in Hlen; lia|]. cbn [length] in Hlen.
    cbn [app everyNth]. rewrite (everyNth_skip c (c - 1) (a ++ b)).
    rewrite (everyNth_skip c (c - 1) a).
    rewrite drop_app_le by lia. rewrite IH; [done|done|].
    rewrite length_drop. lia.
Qed.

Lemma strideFrom_everyNth {A} fuel : ∀ c i n (buf : list A),
  (1 ≤ c)%nat → (n ≤ length buf)%nat → (n ≤ fuel + i)%nat →
  strideFrom fuel c i n buf = Ret (everyNth c 0 (drop i (take n buf))).
Proof.
  induction fuel as [|fuel IH]; intros c i n buf Hc Hn Hfuel; cbn [strideFrom];
    destruct (Nat.ltb_spec i n) as [Hlt|Hge]; try lia;
    try (by rewrite drop_ge by (rewrite length_take; lia)).
  destruct (lookup_lt_is_Some_2 buf i) as [x Hx]; [lia|].
  rewrite (index_Some _ _ _ Hx). cbn [obind]. rewrite IH by lia. cbn [obind].
  assert (take n buf !! i = Some x) as Hx' by (by rewrite lookup_take_lt).
  rewrite (drop_S _ _ _ Hx'). cbn [everyNth].
  rewrite (everyNth_skip c (c - 1)), drop_drop.
  by replace (i + c)%nat with (S i + (c - 1))%nat by lia.
Qed.

Lemma leftChannel_everyNth {A} c (buf : list A) :
  (1 ≤ c)%nat →
  leftChannel (Z.of_nat c) (length buf) buf = Ret (everyNth c 0 buf).
Proof.
  intros Hc. unfold leftChannel. destruct (Nat.eqb_spec (length buf) 0) as [E|E].
  - by destruct buf.
  - destruct (Z.eqb_spec (Z.of_nat c) 0); [lia|]. rewrite Nat2Z.id.
    rewrite strideFrom_everyNth by lia. by rewrite firstn_all.
Qed.

Lemma read8_everyNth c q fuel : ∀ f,
  (1 ≤ c)%nat → 1024%nat = (q * c)%nat → (length f < fuel)%nat →
  read8 fuel (Z.of_nat c) f = Ret (map sample8 (everyNth c 0 f)).
Proof.
  induction fuel as [|fuel IH]; intros f Hc Hq Hfuel; [lia|]. cbn [read8].
  set (n := Nat.min 1024 (length f)).
  destruct (Nat.eqb_spec n 0) as [E|E].
  - destruct f; [done|]. cbn [length] in *. lia.
  - assert (length (take n f) = n) as Hlen by (rewrite length_take; lia).
    rewrite <- Hlen at 1. rewrite leftChannel_everyNth by done. cbn [obind].
    rewrite IH by (rewrite ?length_drop; lia). cbn [obind].
    rewrite <- map_app. do 2 f_equal.
    destruct (Nat.le_gt_cases 1024 (length f)) as [Hbig|Hsmall].
    + rewrite <- (everyNth_app c q) by (done || lia). by rewrite take_drop.
    + rewrite take_ge, drop_ge by lia. by rewrite app_nil_r.
Qed.

(** X16: for 8-bit data and a channel count that divides 1024 (mono,
    stereo, four channels, ...), the sample stream is the normalised first
    byte of every frame of the whole data: reading block by block loses no
    frame alignment. *)
Theorem read8_first_channel (header : WavHeader) (f : list byte) (c q : nat) :
  BitsPerSample header = 8 → NumChannels header = Z.of_nat c →
  (1 ≤ c)%nat → 1024%nat = (q * c)%nat →
  readSamples header f = Ret (map sample8 (everyNth c 0 f)).
Proof.
  intros Hbits Hch Hc Hq. unfold readSamples. rewrite Hbits, Hch.
  cbn [Z.eqb Pos.eqb]. apply (read8_everyNth c q); [done..|lia].
Qed.

Lemma read8_first_channel_witness :
  let header := decodeHeader (take 36 (wavFile 2 44100 8 [])) in
  readSamples header (map byteOf [128; 1; 255; 2; 0; 3])
  = Ret (map sample8 (everyNth 2 0 (map byteOf [128; 1; 255; 2; 0; 3]))).
Proof.
  intros header. apply (read8_first_channel header _ 2 512);
    first [lia | by vm_compute].
Defined.

Lemma read16_everyNth c q k : ∀ f fuel,
  (1 ≤ c)%nat → blockValues = (q * c)%nat →
  length f = (k * blockBytes)%nat → (k < fuel)%nat →
  read16 fuel (Z.of_nat c) f = Ret (map sample16 (everyNth c 0 (int16s f))).
Proof.
  induction k as [|k IH]; intros f fuel Hc Hq Hlen Hfuel;
    (destruct fuel as [|fuel]; [lia|]); cbn [read16].
  - by destruct f.
  - destruct (readFull_app blockBytes f []) as [_ ->]; [lia|].
    rewrite leftChannel_everyNth by done. cbn [obind].
    rewrite (IH (drop blockBytes f)) by (rewrite ?length_drop; lia || done).
    cbn [obind]. rewrite <- map_app.
    assert (length (take blockBytes f) = (2 * blockValues)%nat) as Hblock
      by (rewrite length_take; unfold blockBytes, blockValues in *; lia).
    rewrite <- (everyNth_app c q)
      by (done || (rewrite (int16s_length blockValues); done)).
    rewrite <- (int16s_app blockValues) by done. by rewrite take_drop.
Qed.

(** X17: for 16-bit data made of whole blocks and a channel count that
    divides 1024, the sample stream is the normalised first value of every
    frame; a trailing partial block adds nothing to it. *)
Theorem read16_first_channel (header : WavHeader) (f tail : list byte) (c q k : nat) :
  BitsPerSample header = 16 → NumChannels header = Z.of_nat c →
  (1 ≤ c)%nat → blockValues = (q * c)%nat →
  length f = (k * blockBytes)%nat → (length tail < blockBytes)%nat →
  readSamples header (f ++ tail)
  = Ret (map sample16 (everyNth c 0 (int16s f))).
Proof.
  intros Hbits Hch Hc Hq Hlen Htail. unfold readSamples. rewrite Hbits, Hch.
  cbn [Z.eqb Pos.eqb].
  rewrite (read16_blocks _ tail k f _ (S k)); [|done|done| |lia].
  - apply (read16_everyNth c q k); [done..|lia].
  - rewrite length_app. unfold blockBytes in *. lia.
Qed.

Lemma read16_first_channel_witness :
  let header := decodeHeader (take 36 (wavFile 2 44100 16 [])) in
  let f := flat_map (fun _ => map byteOf [0; 64; 255; 127]) (seq 0 512) in
  readSamples header (f ++ map byteOf [1; 2; 3])
  = Ret (map sample16 (everyNth 2 0 (int16s f))).
Proof.
  intros header f.
  apply (read16_first_channel header f _ 2 512 1);
    first [lia | by vm_compute | apply Nat.ltb_lt; by vm_compute].
Defined.

(** ** The range of the samples *)

Lemma sample8_inUnit b : inUnit (sample8 b) = true.
Proof. by destruct b. Qed.

Lemma sample16_inUnit v : -32768 ≤ v < 32768 → inUnit (sample16 v) = true.
Proof.
  intros Hv. unfold inUnit, sample16, F64.of_int, F64.div, F64.sign, F64.geb.
  cbn [Qnum inject_Z Z.compare F64.leb F64.ltb]. unfold F64.Qltb.
  destruct (Qle_bool_reflect (inject_Z (-1)) (inject_Z v / inject_Z 32768)) as [|Hn];
    [destruct (Qle_bool_reflect (inject_Z 1) (inject_Z v / inject_Z 32768)) as [Hle|];
       [exfalso|done]|exfalso].
  - revert Hle. unfold Qle, Qdiv, Qmult, Qinv, inject_Z. cbn [Qnum Qden]. lia.
  - apply Hn. unfold Qle, Qdiv, Qmult, Qinv, inject_Z. cbn [Qnum Qden]. lia.
Qed.

Lemma lor_below a b n :
  0 ≤ a < 2 ^ n → 0 ≤ b < 2 ^ n → 0 ≤ Z.lor a b < 2 ^ n.
Proof.
  intros Ha Hb. assert (0 ≤ Z.lor a b) as H0 by (apply Z.lor_nonneg; lia).
  split; [done|]. destruct (Z.eq_dec (Z.lor a b) 0) as [->|Hne]; [lia|].
  assert (0 < n) as Hn.
  { destruct (Z.lt_trichotomy n 0) as [H|[->|H]]; [|cbn in *|done].
    - rewrite Z.pow_neg_r in Ha by done. lia.
    - assert (a = 0) as -> by lia. assert (b = 0) as -> by lia. done. }
  apply Z.log2_lt_pow2; [lia|]. rewrite Z.log2_lor by lia.
  apply Z.max_lub_lt.
  - destruct (Z.eq_dec a 0) as [->|]; [done|]. apply Z.log2_lt_pow2; lia.
  - destruct (Z.eq_dec b 0) as [->|]; [done|]. apply Z.log2_lt_pow2; lia.
Qed.

Lemma u8_range b : 0 ≤ u8 b < 256.
Proof. unfold u8. pose proof (Byte.to_N_bounded b). lia. Qed.

Lemma uint16_at_range bs i : 0 ≤ uint16_at bs i < 65536.
Proof.
  unfold uint16_at. apply (lor_below _ _ 16).
  - pose proof (u8_range (byte_at bs i)). lia.
  - pose proof (u8_range (byte_at bs (i + 1))).
    rewrite Z.shiftl_mul_pow2 by lia. lia.
Qed.

Lemma int16s_range bs : Forall (fun v => -32768 ≤ v < 32768) (int16s bs).
Proof.
  assert (∀ n bs, (length bs ≤ n)%nat →
                  Forall (fun v => -32768 ≤ v < 32768) (int16s bs)) as H.
  { clear. induction n as [|n IH]; intros [|b0 [|b1 bs]] Hlen;
      cbn [int16s]; try constructor; cbn [length] in Hlen; try lia.
    - pose proof (uint16_at_range [b0; b1] 0). unfold int16_of.
      destruct (Z.ltb_spec (uint16_at [b0; b1] 0) 32768); lia.
    - apply IH. lia. }
  by apply (H (length bs)).
Qed.

Lemma strideFrom_Forall {A} (P : A → Prop) fuel : ∀ c i n (buf r : list A),
  Forall P buf → strideFrom fuel c i n buf = Ret r → Forall P r.
Proof.
  induction fuel as [|fuel IH]; intros c i n buf r Hbuf; cbn [strideFrom];
    destruct (i <? n)%nat; try discriminate; try (intros [= <-]; constructor).
  unfold index. destruct (buf !! i) as [x|] eqn:Hx; [|done]. cbn [obind].
  destruct (strideFrom fuel c (i + c) n buf) as [r'| | | |] eqn:Hr; try done.
  cbn [obind]. intros [= <-]. constructor; [|by eapply IH].
  eapply Forall_lookup_1; done.
Qed.

Lemma leftChannel_Forall {A} (P : A → Prop) c n (buf r : list A) :
  Forall P buf → leftChannel c n buf = Ret r → Forall P r.
Proof.
  intros Hbuf. unfold leftChannel. destruct (n =? 0)%nat; [by intros [= <-]|].
  destruct (c =? 0); [done|]. by apply strideFrom_Forall.
Qed.

Lemma read8_range fuel : ∀ c f r,
  read8 fuel c f = Ret r → Forall (fun s => inUnit s = true) r.
Proof.
  induction fuel as [|fuel IH]; intros c f r; [done|]. cbn [read8].
  destruct (_ =? 0)%nat; [by intros [= <-]|].
  destruct (leftChannel _ _ _) as [s| | | |]; try done. cbn [obind].
  destruct (read8 fuel c _) as [r'| | | |] eqn:Hr; try done. cbn [obind].
  intros [= <-]. apply Forall_app. split; [|by eapply IH].
  apply Forall_forall. intros x (b & <- & _)%list_elem_of_In%in_map_iff.
  apply sample8_inUnit.
Qed.

Lemma read16_range fuel : ∀ c f r,
  read16 fuel c f = Ret r → Forall (fun s => inUnit s = true) r.
Proof.
  induction fuel as [|fuel IH]; intros c f r; [done|]. cbn [read16].
  destruct (readFull blockBytes f) as [e|[bs f']]; [by intros [= <-]|].
  destruct (leftChannel _ _ _) as [s| | | |] eqn:Hs; try done. cbn [obind].
  destruct (read16 fuel c f') as [r'| | | |] eqn:Hr; try done. cbn [obind].
  intros [= <-]. apply Forall_app. split; [|by eapply IH].
  apply (leftChannel_Forall _ _ _ _ _ (int16s_range bs)) in Hs.
  apply Forall_forall. intros x (v & <- & Hv)%list_elem_of_In%in_map_iff.
  apply sample16_inUnit.
  apply list_elem_of_In in Hv. by apply (proj1 (Forall_forall _ _) Hs).
Qed.

(** X18: every sample handed to the decoder is normalised: whatever the
    file, the sample width and the channel count, the samples read from the
    data are finite numbers at least -1 and below 1. *)
Theorem samples_normalised (header : WavHeader) (f : list byte)
    (samples : list F64.t) :
  readSamples header f = Ret samples →
  Forall (fun s => inUnit s = true) samples.
Proof.
  unfold readSamples. destruct (_ =? 8); [apply read8_range|].
  destruct (_ =? 16); [apply read16_range|done].
Qed.

Lemma samples_normalised_witness :
  Forall (fun s => inUnit s = true)
         (map sample8 (map byteOf [0; 128; 255])).
Proof.
  apply (samples_normalised (decodeHeader (take 36 (wavFile 1 44100 8 [])))
           (map byteOf [0; 128; 255])).
  by vm_compute.
Defined.

(** ** When [Decode] panics *)

Lemma leftChannel_first {A} c n (buf : list A) :
  1 ≤ c → (1 ≤ n ≤ length buf)%nat →
  ∃ x r, leftChannel c n buf = Ret (x :: r).
Proof.
  intros Hc Hn. unfold leftChannel.
  destruct (Nat.eqb_spec n 0); [lia|]. destruct (Z.eqb_spec c 0); [lia|].
  destruct n as [|n]; [lia|]. cbn [strideFrom].
  destruct (Nat.ltb_spec 0 (S n)); [|lia].
  destruct (lookup_lt_is_Some_2 buf 0) as [x Hx]; [lia|].
  rewrite (index_Some _ _ _ Hx). cbn [obind].
  destruct (strideFrom_total n (Z.to_nat c) (0 + Z.to_nat c) (S n) buf) as [r ->];
    [lia..|]. cbn [obind]. eauto.
Qed.

Lemma read8_returns fuel : ∀ c f,
  1 ≤ c → (length f < fuel)%nat →
  ∃ r, read8 fuel c f = Ret r ∧ (f ≠ [] → r ≠ []).
Proof.
  induction fuel as [|fuel IH]; intros c f Hc Hfuel; [lia|]. cbn [read8].
  set (n := Nat.min 1024 (length f)).
  destruct (Nat.eqb_spec n 0) as [E|E].
  - exists []. split; [done|]. destruct f; [done|]. cbn [length] in *. lia.
  - destruct (leftChannel_first c n (take n f) Hc) as (x & s & ->);
      [rewrite length_take; lia|]. cbn [obind].
    destruct (IH c (drop n f) Hc) as (r & -> & _); [rewrite length_drop; lia|].
    cbn [obind]. eauto.
Qed.

Lemma read16_returns fuel : ∀ c f,
  1 ≤ c → (length f < fuel)%nat →
  ∃ r, read16 fuel c f = Ret r ∧ (r = [] ↔ (length f < blockBytes)%nat).
Proof.
  induction fuel as [|fuel IH]; intros c f Hc Hfuel; [lia|]. cbn [read16].
  destruct (readFull blockBytes f) as [e|[bs f']] eqn:Hrd.
  - exists []. split; [done|]. split; [|done]. intros _.
    unfold readFull in Hrd. by destruct (Nat.leb_spec blockBytes (length f)).
  - apply readFull_inr in Hrd as (-> & -> & Hlen).
    destruct (leftChannel_first c (length (int16s (take blockBytes f)))
                (int16s (take blockBytes f)) Hc) as (x & s & ->).
    { rewrite (int16s_length blockValues); [unfold blockValues; lia|].
      rewrite length_take. unfold blockBytes, blockValues in *. lia. }
    cbn [obind].
    destruct (IH c (drop blockBytes f) Hc) as (r & -> & _).
    { rewrite length_drop. unfold blockBytes in *. lia. }
    cbn [obind]. eexists. split; [done|]. split; [done|lia].
Qed.

(** X19: [Decode] panics exactly when no sample can be read.  For a
    RIFF/WAVE file whose data chunk is found and whose channel count is at
    least 1: with 8-bit samples it panics when nothing follows the head of
    the data chunk and returns bytes otherwise; with 16-bit samples it
    panics when fewer than 2048 bytes follow and returns bytes
    otherwise. *)
Theorem Decode_panics_without_samples
    (fs : string → option (list byte)) (filename : string)
    (file rest pcm : list byte) (header : WavHeader) :
  fs filename = Some file →
  readHeader file = Ret (header, rest) →
  bytes_eqb (ChunkID header) tagRIFF = true →
  bytes_eqb (Format header) tagWAVE = true →
  findDataChunk (S (length rest)) rest = Ret pcm →
  1 ≤ NumChannels header →
  (BitsPerSample header = 8 →
     (pcm = [] → Decode fs filename = Panic)
     ∧ (pcm ≠ [] → ∃ bytes, Decode fs filename = Ret bytes))
  ∧ (BitsPerSample header = 16 →
       ((length pcm < blockBytes)%nat → Decode fs filename = Panic)
       ∧ ((blockBytes ≤ length pcm)%nat → ∃ bytes, Decode fs filename = Ret bytes)).
Proof.
  intros Hopen Hhdr Hriff Hwave Hdata Hc.
  assert (∀ samples,
            readSamples header pcm = Ret samples →
            (samples = [] → Decode fs filename = Panic)
            ∧ (samples ≠ [] → ∃ bytes, Decode fs filename = Ret bytes)) as Hdec.
  { intros samples Hrs. unfold Decode.
    rewrite Hopen, Hhdr. cbn [obind]. rewrite Hriff, Hwave. cbn [negb orb].
    rewrite Hdata. cbn [obind]. rewrite Hrs. cbn [obind].
    destruct samples as [|s samples]; split; try done.
    intros _. apply processSamples_returns. }
  split; intros Hbits; unfold readSamples in Hdec; rewrite Hbits in Hdec;
    cbn [Z.eqb Pos.eqb] in Hdec.
  - destruct (read8_returns (S (length pcm)) (NumChannels header) pcm Hc)
      as (r & Hr & Hne); [lia|].
    destruct (Hdec r Hr) as [Hp Hret]. split.
    + intros ->. apply Hp. cbn in Hr. congruence.
    + intros Hpcm. apply Hret, Hne, Hpcm.
  - destruct (read16_returns (S (length pcm)) (NumChannels header) pcm Hc)
      as (r & Hr & Hiff); [lia|].
    destruct (Hdec r Hr) as [Hp Hret]. split.
    + intros Hlt. apply Hp. by apply Hiff.
    + intros Hge. apply Hret. intros Hnil. apply Hiff in Hnil. lia.
Qed.

Lemma Decode_panics_without_samples_witness :
  let pcm := map byteOf [128; 0; 255] in
  let f := wavFile 1 44100 8 pcm in
  let header := decodeHeader (take 36 f) in
  (BitsPerSample header = 8 →
     (pcm = [] → Decode (oneFile f) "tape.wav"%string = Panic)
     ∧ (pcm ≠ [] → ∃ bytes, Decode (oneFile f) "tape.wav"%string = Ret bytes))
  ∧ (BitsPerSample header = 16 →
       ((length pcm < blockBytes)%nat →
        Decode (oneFile f) "tape.wav"%string = Panic)
       ∧ ((blockBytes ≤ length pcm)%nat →
          ∃ bytes, Decode (oneFile f) "tape.wav"%string = Ret bytes)).
Proof.
  intros pcm f header.
  apply (Decode_panics_without_samples (oneFile f) "tape.wav"%string f
           (drop 36 f) pcm header);
    by vm_compute.
Defined.

(** ** From the file to the bytes *)





